(** * nomknod: a shim for the [mknod] family

    Verification of [src/nomknod/nomknod.c].  The file defines four
    functions, [mknod], [mknodat], [_mknod] and [_xmknod].  The first two
    replace device-node creation by an exclusive [open]/[openat] followed
    by [close]; the last two return [0].

    The development has three layers:
    - the shim itself, written as programs over the three system calls
      it issues ([open], [openat], [close]);
    - an interpreter of such programs against any operating system, and
      a reference model of the three calls (files, descriptors, limits,
      [errno]) to run them on;
    - an interleaving semantics for several threads running the shim on a
      shared kernel. *)

From stdpp Require Import gmap strings list fin_maps.
From Stdlib Require Import ZArith Ascii.

Local Open Scope Z_scope.

(** ** C types and header constants *)

(** [const char *]: a pointer to a NUL-terminated string, or [NULL]. *)
Definition cstr : Type := option string.

Definition mode_t : Type := Z.
Definition dev_t : Type := Z.

(** The constants of [<fcntl.h>] the shim and the system calls refer to.
    Their values differ between platforms (illumos and Linux disagree on
    all three), so they are kept abstract; the only fact used is that
    the two open flags are non-zero bit masks. *)
Class fcntl_h : Type := {
  O_CREAT : Z;
  O_EXCL : Z;
  AT_FDCWD : Z;
  O_CREAT_nonzero : O_CREAT ≠ 0;
  O_EXCL_nonzero : O_EXCL ≠ 0
}.

(** ** Programs over system calls *)

Inductive syscall : Type :=
| sys_open (path : cstr) (oflag : Z) (mode : mode_t)
| sys_openat (fd : Z) (path : cstr) (oflag : Z) (mode : mode_t)
| sys_close (fd : Z).

(** A C function body that only computes on [int]s and issues system
    calls: either it returns, or it issues a call and continues with the
    [int] the call returned. *)
Inductive prog (A : Type) : Type :=
| Return (a : A)
| Syscall (c : syscall) (k : Z → prog A).

Arguments Return {A} a.
Arguments Syscall {A} c k.

Fixpoint prog_seq {A B : Type} (f : A → prog B) (p : prog A) : prog B :=
  match p with
  | Return a => f a
  | Syscall c k => Syscall c (λ r, prog_seq f (k r))
  end.

#[global] Instance prog_ret : MRet prog := @Return.
#[global] Instance prog_bind : MBind prog := @prog_seq.

Definition open (path : cstr) (oflag : Z) (mode : mode_t) : prog Z :=
  Syscall (sys_open path oflag mode) Return.

Definition openat (fd : Z) (path : cstr) (oflag : Z) (mode : mode_t) : prog Z :=
  Syscall (sys_openat fd path oflag mode) Return.

Definition close (fd : Z) : prog Z :=
  Syscall (sys_close fd) Return.

(** ** The shim (nomknod.c) *)

Section Shim.
Context `{fcntl_h}.

Definition mknod (path : cstr) (mode : mode_t) (dev : dev_t) : prog Z :=
  tmpfd ← open path (Z.lor O_CREAT O_EXCL) mode;
  if tmpfd =? -1 then
    mret (-1)
  else
    close tmpfd;;
    mret 0.

Definition mknodat (fd : Z) (path : cstr) (mode : mode_t) (dev : dev_t) : prog Z :=
  tmpfd ← openat fd path (Z.lor O_CREAT O_EXCL) mode;
  if tmpfd =? -1 then
    mret (-1)
  else
    close tmpfd;;
    mret 0.

(** The exclusive-creation call [mknod] starts with, and the one
    [mknodat] starts with. *)
Definition creation_call (path : cstr) (mode : mode_t) : syscall :=
  sys_open path (Z.lor O_CREAT O_EXCL) mode.

Definition creation_call_at (fd : Z) (path : cstr) (mode : mode_t) : syscall :=
  sys_openat fd path (Z.lor O_CREAT O_EXCL) mode.

(** [int _mknod()] has no prototype: whatever the caller passes is
    never read. *)
Definition _mknod (args : list Z) : prog Z :=
  mret 0.

Definition _xmknod (version : Z) (path : cstr) (mode : mode_t) (dev : dev_t) : prog Z :=
  mret 0.
End Shim.

(** ** Running a program on an operating system *)

(** Error numbers of [<errno.h>] that occur below. *)
Inductive error : Type :=
| ENOENT | EIO | EBADF | EACCES | EFAULT | EEXIST | ENOTDIR
| EISDIR | EMFILE | ENAMETOOLONG.

#[global] Instance error_eq_dec : EqDecision error.
Proof. solve_decision. Defined.

(** An operating system over states [St]: how each system call maps a
    state to the returned [int] and the next state, and where the calling
    thread's [errno] is kept. *)
Class OS (St : Type) : Type := {
  exec : syscall → St → Z * St;
  errno : St → option error
}.

Fixpoint run {St : Type} `{OS St} {A : Type} (p : prog A) (s : St) : A * St :=
  match p with
  | Return a => (a, s)
  | Syscall c k => let '(r, s') := exec c s in run (k r) s'
  end.

(** The system calls a run issues, each with the value it returned. *)
Fixpoint trace {St : Type} `{OS St} {A : Type} (p : prog A) (s : St) : list (syscall * Z) :=
  match p with
  | Return _ => []
  | Syscall c k => let '(r, s') := exec c s in (c, r) :: trace (k r) s'
  end.

(** What the caller of an [int]-returning library function may observe:
    success, or failure together with [errno] ([errno] is only meaningful
    after a failure was reported). *)
Inductive outcome : Type :=
| Success
| Failure (detail : option error).

Definition outcome_of {St : Type} `{OS St} (r : Z * St) : outcome :=
  if r.1 =? 0 then Success else Failure (errno r.2).

(** ** A reference model of the system calls *)

(** File types of [<sys/stat.h>]; symbolic links are outside the model. *)
Inductive ftype : Type :=
| S_IFREG | S_IFDIR | S_IFCHR | S_IFBLK | S_IFIFO | S_IFSOCK.

#[global] Instance ftype_eq_dec : EqDecision ftype.
Proof. solve_decision. Defined.

Record inode : Type := {
  i_type : ftype;
  i_perm : Z;            (* permission bits, within 07777 *)
  i_data : list Z        (* contents, one byte per element *)
}.

(** An open file description: the file it refers to and the flags it was
    opened with. *)
Record ofile : Type := {
  of_node : list string;
  of_flag : Z
}.

(** Files are keyed by their absolute path as a list of names, the root
    directory being [[]].  The kernel carries the limits a call can run
    into: descriptors are the numbers below [k_nofile] (RLIMIT_NOFILE), a
    name has at most [k_name_max] bytes (NAME_MAX), and a path with its
    terminating NUL at most [k_path_max] bytes (PATH_MAX).  Resources of
    the whole system (disk space, memory, the system file table) are not
    modelled: no call fails for lack of them. *)
Record kernel : Type := {
  k_fs : gmap (list string) inode;
  k_fd : gmap nat ofile;
  k_cwd : list string;
  k_umask : Z;
  k_priv : bool;         (* the process bypasses permission checks *)
  k_nofile : nat;
  k_name_max : nat;
  k_path_max : nat
}.

Definition is_dir (n : inode) : bool := bool_decide (i_type n = S_IFDIR).

(** Owner search (0100) and write (0200) permission on a directory. *)
Definition may_search (k : kernel) (d : inode) : bool :=
  k_priv k || Z.testbit (i_perm d) 6.
Definition may_write (k : kernel) (d : inode) : bool :=
  k_priv k || Z.testbit (i_perm d) 7.

(** *** Path names *)

Definition is_absolute (p : string) : bool :=
  match p with
  | String "/"%char _ => true
  | _ => false
  end.

(** Splits at slashes; empty names (repeated, leading and trailing
    slashes) are dropped.  [acc] is the name being read. *)
Fixpoint split_names (p : string) (acc : string) : list string :=
  match p with
  | EmptyString => if bool_decide (acc = "") then [] else [acc]
  | String "/"%char rest =>
      if bool_decide (acc = "") then split_names rest ""
      else acc :: split_names rest ""
  | String c rest => split_names rest (acc +:+ String c "")
  end.

(** The names of a path. *)
Definition components (p : string) : list string := split_names p "".

(** The path ends in a slash. *)
Fixpoint trailing_slash (p : string) : bool :=
  match p with
  | EmptyString => false
  | String c EmptyString => bool_decide (c = "/"%char)
  | String _ rest => trailing_slash rest
  end.

Definition is_dot (c : string) : bool :=
  bool_decide (c = ".") || bool_decide (c = "..").

(** The last name of the path is an ordinary name, not [.] or [..]. *)
Definition ordinary_last (names : list string) : bool :=
  match last names with
  | Some c => negb (is_dot c)
  | None => false
  end.

(** One step of resolution from directory [cur]. *)
Definition step (cur : list string) (c : string) : list string :=
  if bool_decide (c = ".") then cur
  else if bool_decide (c = "..") then removelast cur
  else cur ++ [c].

(** Why names cannot be looked up in [cur], if they cannot: it must
    exist, be a directory, and be searchable. *)
Definition enter (k : kernel) (cur : list string) : option error :=
  match k_fs k !! cur with
  | None => Some ENOENT
  | Some d =>
      if negb (is_dir d) then Some ENOTDIR
      else if negb (may_search k d) then Some EACCES
      else None
  end.

(** Follows [names] from [cur]; every name is looked up in a directory
    that can be entered, and must not be longer than a name may be. *)
Fixpoint walk (k : kernel) (cur : list string) (names : list string) : error + list string :=
  match names with
  | [] => inr cur
  | c :: rest =>
      match enter k cur with
      | Some e => inl e
      | None =>
          if (k_name_max k <? String.length c)%nat then inl ENAMETOOLONG
          else walk k (step cur c) rest
      end
  end.

Inductive lookup_result : Type :=
| Found (key : list string) (n : inode)
| Absent (key : list string) (parent : inode)
| Fails (e : error).

(** Resolves path [p] from directory [dir]: the file it names, or the
    place a new file would take in an existing directory, or why the
    resolution fails.  A path with a trailing slash names directories
    only, and only an ordinary last name can name a new file. *)
Definition namei (k : kernel) (dir : list string) (p : string) : lookup_result :=
  if bool_decide (p = "") then Fails ENOENT
  else if (k_path_max k <=? String.length p)%nat then Fails ENAMETOOLONG
  else
    match walk k dir (components p) with
    | inl e => Fails e
    | inr key =>
        match k_fs k !! key with
        | Some n =>
            if trailing_slash p && negb (is_dir n) then Fails ENOTDIR
            else Found key n
        | None =>
            if negb (ordinary_last (components p)) then Fails ENOENT
            else
              match k_fs k !! removelast key with
              | Some d => if is_dir d then Absent key d else Fails ENOTDIR
              | None => Fails ENOENT
              end
        end
    end.

(** The error of a creation at a path that ends in an ordinary name
    followed by a slash: that of reaching the directory of the name, or
    else EISDIR. *)
Definition trailing_slash_error (k : kernel) (dir : list string) (p : string) : error :=
  match walk k dir (removelast (components p)) with
  | inl e => e
  | inr parent =>
      match enter k parent with
      | Some e => e
      | None => EISDIR
      end
  end.

(** *** Descriptors *)

(** The lowest descriptor number not in use. *)
Fixpoint first_free (t : gmap nat ofile) (n fuel : nat) : nat :=
  match fuel with
  | O => n
  | S fuel' => if bool_decide (t !! n = None) then n else first_free t (S n) fuel'
  end.

Definition lowest_free (t : gmap nat ofile) : nat := first_free t 0 (size t).

(** No descriptor number below the limit is free. *)
Definition table_full (k : kernel) : bool :=
  (k_nofile k <=? lowest_free (k_fd k))%nat.

Definition set_fs (k : kernel) (fs : gmap (list string) inode) : kernel :=
  {| k_fs := fs; k_fd := k_fd k; k_cwd := k_cwd k; k_umask := k_umask k;
     k_priv := k_priv k; k_nofile := k_nofile k; k_name_max := k_name_max k;
     k_path_max := k_path_max k |}.

Definition set_fd (k : kernel) (t : gmap nat ofile) : kernel :=
  {| k_fs := k_fs k; k_fd := t; k_cwd := k_cwd k; k_umask := k_umask k;
     k_priv := k_priv k; k_nofile := k_nofile k; k_name_max := k_name_max k;
     k_path_max := k_path_max k |}.


(** A new descriptor for the file at [key]. *)
Definition install (k : kernel) (key : list string) (oflag : Z) : Z * kernel :=
  let fd := lowest_free (k_fd k) in
  (Z.of_nat fd, set_fd k (<[fd := {| of_node := key; of_flag := oflag |}]> (k_fd k))).

(** A new, empty regular file at [key].  Of [mode] only the bits within
    07777 that the umask lets through are kept. *)
Definition new_file (k : kernel) (mode : mode_t) : inode :=
  {| i_type := S_IFREG;
     i_perm := Z.land (Z.land mode 0xfff) (Z.lnot (k_umask k));
     i_data := [] |}.

Definition creat (k : kernel) (key : list string) (mode : mode_t) : kernel :=
  set_fs k (<[key := new_file k mode]> (k_fs k)).

Definition has_flag (oflag bit : Z) : bool := negb (Z.land oflag bit =? 0).

(** *** The system calls *)

Section Posix.
Context `{fcntl_h}.

(** [open]/[openat] once the directory relative paths start from is
    known.  The checks come in the order Linux makes them: the path
    string (null, empty, too long), then a free descriptor, then the
    directory argument, then the resolution of the path.  With
    [O_CREAT], a path that ends in an ordinary name followed by a slash
    is refused with EISDIR once the directory of the name is reached.
    Only [O_CREAT] and [O_EXCL] are interpreted; access modes and the
    other flags play no role for the shim. *)
Definition open_from (k : kernel) (dir : error + list string) (path : cstr)
    (oflag : Z) (mode : mode_t) : (error + Z) * kernel :=
  match path with
  | None => (inl EFAULT, k)
  | Some p =>
      if bool_decide (p = "") then (inl ENOENT, k)
      else if (k_path_max k <=? String.length p)%nat then (inl ENAMETOOLONG, k)
      else if table_full k then (inl EMFILE, k)
      else
        match (if is_absolute p then inr [] else dir) with
        | inl e => (inl e, k)
        | inr d =>
            if has_flag oflag O_CREAT && trailing_slash p && ordinary_last (components p)
            then (inl (trailing_slash_error k d p), k)
            else
              match namei k d p with
              | Fails e => (inl e, k)
              | Found key _ =>
                  if has_flag oflag O_CREAT && has_flag oflag O_EXCL then (inl EEXIST, k)
                  else let '(fd, k') := install k key oflag in (inr fd, k')
              | Absent key parent =>
                  if negb (has_flag oflag O_CREAT) then (inl ENOENT, k)
                  else if negb (may_write k parent) then (inl EACCES, k)
                  else let '(fd, k') := install (creat k key mode) key oflag in (inr fd, k')
              end
        end
  end.

(** The directory a descriptor argument of [openat] stands for. *)
Definition dir_of_fd (k : kernel) (fd : Z) : error + list string :=
  if fd =? AT_FDCWD then inr (k_cwd k)
  else if fd <? 0 then inl EBADF
  else
    match k_fd k !! Z.to_nat fd with
    | None => inl EBADF
    | Some f =>
        match k_fs k !! of_node f with
        | Some n => if is_dir n then inr (of_node f) else inl ENOTDIR
        | None => inl ENOTDIR
        end
    end.

Definition close_fd (k : kernel) (fd : Z) : (error + Z) * kernel :=
  if fd <? 0 then (inl EBADF, k)
  else
    match k_fd k !! Z.to_nat fd with
    | None => (inl EBADF, k)
    | Some _ => (inr 0, set_fd k (delete (Z.to_nat fd) (k_fd k)))
    end.

Definition kexec (c : syscall) (k : kernel) : (error + Z) * kernel :=
  match c with
  | sys_open path oflag mode => open_from k (inr (k_cwd k)) path oflag mode
  | sys_openat fd path oflag mode => open_from k (dir_of_fd k fd) path oflag mode
  | sys_close fd => close_fd k fd
  end.
End Posix.

(** A thread of a process: the kernel state it sees and its [errno]. *)
Record process : Type := {
  p_kernel : kernel;
  p_errno : option error
}.

(** The C library's convention: a failed call returns [-1] and stores the
    error number in [errno]; a successful one leaves [errno] alone. *)
Definition libc (r : (error + Z) * kernel) (old : option error) : Z * process :=
  match r with
  | (inl e, k) => (-1, {| p_kernel := k; p_errno := Some e |})
  | (inr v, k) => (v, {| p_kernel := k; p_errno := old |})
  end.

#[global] Instance posix `{fcntl_h} : OS process := {
  exec c s := libc (kexec c (p_kernel s)) (p_errno s);
  errno := p_errno
}.

(** The same system, except that [close] reports an I/O error after
    releasing the descriptor. *)
Definition posix_eio `{fcntl_h} : OS process := {|
  exec c s :=
    match c with
    | sys_close fd =>
        (-1, {| p_kernel := (kexec c (p_kernel s)).2; p_errno := Some EIO |})
    | _ => libc (kexec c (p_kernel s)) (p_errno s)
    end;
  errno := p_errno
|}.

(** *** Platforms and sample states *)

Definition illumos : fcntl_h.
Proof. refine {| O_CREAT := 0x100; O_EXCL := 0x400; AT_FDCWD := -3041965 |}; done. Defined.

Definition linux : fcntl_h.
Proof. refine {| O_CREAT := 0x40; O_EXCL := 0x80; AT_FDCWD := -100 |}; done. Defined.

Definition dir_node (perm : Z) : inode :=
  {| i_type := S_IFDIR; i_perm := perm; i_data := [] |}.

(** [/], [/tmp], [/tmp/old] (a three-byte file), [/dev], [/dev/null] (a
    character device) and a read-only directory [/ro]; descriptors 0 and
    3 are open, 3 on [/tmp]; the working directory is [/dev]. *)
Definition sample_kernel : kernel :=
  {| k_fs := list_to_map
       [ ([], dir_node 0x1ed);
         (["tmp"], dir_node 0x3ff);
         (["tmp"; "old"], {| i_type := S_IFREG; i_perm := 0x1a4; i_data := [104; 105; 10] |});
         (["dev"], dir_node 0x1ed);
         (["dev"; "null"], {| i_type := S_IFCHR; i_perm := 0x1b6; i_data := [] |});
         (["ro"], dir_node 0x16d) ];
     k_fd := list_to_map
       [ (0%nat, {| of_node := ["dev"; "null"]; of_flag := 0 |});
         (3%nat, {| of_node := ["tmp"]; of_flag := 0 |}) ];
     k_cwd := ["dev"];
     k_umask := 0x12;
     k_priv := false;
     k_nofile := 256;
     k_name_max := 255;
     k_path_max := 4096 |}.

Definition sample : process := {| p_kernel := sample_kernel; p_errno := None |}.



(** *** Looking at a state *)

(** The directory a path is resolved from by [open]. *)
Definition start_dir (k : kernel) (p : string) : list string :=
  if is_absolute p then [] else k_cwd k.

(** What is at path [p], as the process sees it. *)
Definition lookup_path (k : kernel) (p : string) : lookup_result :=
  namei k (start_dir k p) p.


(** The permission part of a mode (07777); the node type lives in the
    bits above it ([S_IFMT] is 0170000). *)
Definition perm_bits (mode : mode_t) : Z := Z.land mode 0xfff.


(** The path ends in an ordinary name with no slash after it. *)
Definition plain_path (p : string) : bool :=
  negb (trailing_slash p) && ordinary_last (components p).

(** At least [n] descriptor numbers below the limit are unused. *)
Definition descriptors_free (k : kernel) (n : nat) : Prop :=
  (size (k_fd k) + n ≤ k_nofile k)%nat.

(** ** Outcomes on the reference model, and sequences of calls *)

(** What an exclusive creation comes to: the place of the new file, or
    the error, by the checks of [open_from] in their order. *)
Definition attempt (k : kernel) (dir : error + list string) (path : cstr) :
    error + list string :=
  match path with
  | None => inl EFAULT
  | Some p =>
      if bool_decide (p = "") then inl ENOENT
      else if (k_path_max k <=? String.length p)%nat then inl ENAMETOOLONG
      else if table_full k then inl EMFILE
      else
        match (if is_absolute p then inr [] else dir) with
        | inl e => inl e
        | inr d =>
            if trailing_slash p && ordinary_last (components p)
            then inl (trailing_slash_error k d p)
            else
              match namei k d p with
              | Fails e => inl e
              | Found _ _ => inl EEXIST
              | Absent key parent => if may_write k parent then inr key else inl EACCES
              end
        end
  end.

(** What an exclusive creation followed by [close] comes to. *)
Definition expected (s : process) (dir : error + list string) (path : cstr)
    (mode : mode_t) : Z * process :=
  match attempt (p_kernel s) dir path with
  | inl e => (-1, {| p_kernel := p_kernel s; p_errno := Some e |})
  | inr key => (0, {| p_kernel := creat (p_kernel s) key mode; p_errno := p_errno s |})
  end.

(** ** Threads sharing one kernel *)

(** A thread is what is left of its function body, and its own [errno]. *)
Record thread : Type := {
  t_prog : prog Z;
  t_errno : option error
}.

Record machine : Type := {
  m_kernel : kernel;
  m_threads : list thread
}.

(** Thread [i] performs its next system call, atomically on the shared
    kernel; a thread that has returned, or an index that names no
    thread, changes nothing. *)
Definition step_thread `{fcntl_h} (i : nat) (m : machine) : machine :=
  match m_threads m !! i with
  | Some {| t_prog := Syscall c k; t_errno := e |} =>
      let '(r, s') := exec c {| p_kernel := m_kernel m; p_errno := e |} in
      {| m_kernel := p_kernel s';
         m_threads := <[i := {| t_prog := k r; t_errno := p_errno s' |}]> (m_threads m) |}
  | _ => m
  end.

(** A schedule lists, in order, which thread moves. *)
Definition run_schedule `{fcntl_h} (sched : list nat) (m : machine) : machine :=
  foldl (λ m i, step_thread i m) m sched.

(** How often thread [i] is scheduled. *)
Definition turns (i : nat) (sched : list nat) : nat :=
  length (filter (λ j, j = i) sched).

(** One [mknod] call per element of [calls], all on path [p], none of
    them started yet. *)
Definition spawn `{fcntl_h} (k : kernel) (p : cstr) (calls : list (mode_t * dev_t)) : machine :=
  {| m_kernel := k;
     m_threads := (λ c, {| t_prog := mknod p c.1 c.2; t_errno := None |}) <$> calls |}.

(** What a thread reports once it has returned. *)
Definition thread_outcome (t : thread) : option outcome :=
  match t_prog t with
  | Return r => Some (if r =? 0 then Success else Failure (t_errno t))
  | Syscall _ _ => None
  end.

(** The states a thread running [mknod] goes through. *)
Definition initial `{fcntl_h} (p : string) (c : mode_t * dev_t) : thread :=
  {| t_prog := mknod (Some p) c.1 c.2; t_errno := None |}.

Definition closing (fd : Z) : thread :=
  {| t_prog := close fd ≫= λ _, mret 0; t_errno := None |}.

Definition succeeded : thread :=
  {| t_prog := Return 0; t_errno := None |}.

Definition lost : thread :=
  {| t_prog := Return (-1); t_errno := Some EEXIST |}.

(** A thread that has returned -1 with error [e]. *)
Definition failed (e : error) : thread :=
  {| t_prog := Return (-1); t_errno := Some e |}.

(** The thread that gets the first turn, among [n] threads. *)
Definition first_thread (n : nat) (sched : list nat) : option nat :=
  head (filter (λ i, (i < n)%nat) sched).

(** An error a call can meet once another call has created the file:
    the entry exists, or, while the creator still holds its descriptor,
    none is left for the attempt. *)
Definition late_error (k : kernel) (e : error) : Prop :=
  e = EEXIST ∨ (e = EMFILE ∧ ¬ descriptors_free k 2).

(** The calls other than [w], after schedule [sched]: those that have not
    moved are still at their start, those that have moved have failed. *)
Definition losers `{fcntl_h} (k : kernel) (p : string) (calls : list (mode_t * dev_t))
    (w : nat) (sched : list nat) (ts : list thread) : Prop :=
  length ts = length calls ∧
  ∀ j c, j ≠ w → calls !! j = Some c →
    if decide (turns j sched = 0%nat) then ts !! j = Some (initial p c)
    else ∃ e, ts !! j = Some (failed e) ∧ late_error k e.

(** The race among the calls on path [p] started in kernel [k], after
    schedule [sched]: no call has moved; or the creation is impossible
    and every call that has moved has failed with its error; or call
    [w], the first to move, has created the file and is about to close
    its descriptor; or it has closed it and returned. *)
Inductive race `{fcntl_h} (k : kernel) (p : string)
    (calls : list (mode_t * dev_t)) (sched : list nat) (m : machine) : Prop :=
| race_not_started :
    first_thread (length calls) sched = None →
    m = spawn k (Some p) calls →
    race k p calls sched m
| race_blocked e :
    attempt k (inr (k_cwd k)) (Some p) = inl e →
    m_kernel m = k →
    length (m_threads m) = length calls →
    (∀ j c, calls !! j = Some c →
       m_threads m !! j =
         Some (if decide (turns j sched = 0%nat) then initial p c else failed e)) →
    race k p calls sched m
| race_closing w cw key :
    attempt k (inr (k_cwd k)) (Some p) = inr key →
    first_thread (length calls) sched = Some w →
    calls !! w = Some cw →
    turns w sched = 1%nat →
    m_kernel m = (install (creat k key cw.1) key (Z.lor O_CREAT O_EXCL)).2 →
    m_threads m !! w =
      Some (closing (install (creat k key cw.1) key (Z.lor O_CREAT O_EXCL)).1) →
    losers k p calls w sched (m_threads m) →
    race k p calls sched m
| race_decided w cw key :
    attempt k (inr (k_cwd k)) (Some p) = inr key →
    first_thread (length calls) sched = Some w →
    calls !! w = Some cw →
    (2 ≤ turns w sched)%nat →
    m_kernel m = creat k key cw.1 →
    m_threads m !! w = Some succeeded →
    losers k p calls w sched (m_threads m) →
    race k p calls sched m.

#[global] Instance outcome_eq_dec : EqDecision outcome.
Proof. solve_decision. Defined.

(** Every entry but the root sits in an existing directory. *)
Definition wf_tree (k : kernel) : Prop :=
  ∀ key n, k_fs k !! key = Some n → key ≠ [] →
    ∃ d, k_fs k !! removelast key = Some d ∧ is_dir d = true.

(** A call of one of the four functions of the shim. *)
Inductive shim_call : Type :=
| call_mknod (path : cstr) (mode : mode_t) (dev : dev_t)
| call_mknodat (fd : Z) (path : cstr) (mode : mode_t) (dev : dev_t)
| call__mknod (args : list Z)
| call__xmknod (version : Z) (path : cstr) (mode : mode_t) (dev : dev_t).

Definition body `{fcntl_h} (c : shim_call) : prog Z :=
  match c with
  | call_mknod path mode dev => mknod path mode dev
  | call_mknodat fd path mode dev => mknodat fd path mode dev
  | call__mknod args => _mknod args
  | call__xmknod version path mode dev => _xmknod version path mode dev
  end.

(** The calls of [cs] one after the other: the values returned, and the
    state left. *)
Fixpoint run_calls `{fcntl_h} (cs : list shim_call) (s : process) : list Z * process :=
  match cs with
  | [] => ([], s)
  | c :: cs' =>
      let '(r, s1) := run (body c) s in
      let '(rs, s2) := run_calls cs' s1 in
      (r :: rs, s2)
  end.

(** How many entries a call that returned [r] has added. *)
Definition created (c : shim_call) (r : Z) : nat :=
  match c with
  | call_mknod _ _ _ | call_mknodat _ _ _ _ => if r =? 0 then 1%nat else 0%nat
  | call__mknod _ | call__xmknod _ _ _ _ => 0%nat
  end.

Fixpoint created_by (cs : list shim_call) (rs : list Z) : nat :=
  match cs, rs with
  | c :: cs', r :: rs' => (created c r + created_by cs' rs')%nat
  | _, _ => 0%nat
  end.

(** Kernel [k'] is kernel [k] with [added] more entries, each an empty
    regular file: the entries of [k] are all there unchanged, and so are
    the descriptor table, the working directory, the umask and the
    privilege. *)
Definition extends (k k' : kernel) (added : nat) : Prop :=
  k_fd k' = k_fd k ∧ k_cwd k' = k_cwd k ∧ k_umask k' = k_umask k ∧ k_priv k' = k_priv k ∧
  (∀ key n, k_fs k !! key = Some n → k_fs k' !! key = Some n) ∧
  (∀ key n, k_fs k' !! key = Some n → k_fs k !! key = None →
     i_type n = S_IFREG ∧ i_data n = []) ∧
  size (k_fs k') = (size (k_fs k) + added)%nat.

(** * Properties *)

(** ** The shim on any operating system *)

Section AnyOS.
Context `{fcntl_h} {St : Type} `{OS St}.

Lemma run_mknod path mode dev s :
  run (mknod path mode dev) s =
    let '(tmpfd, s1) := exec (creation_call path mode) s in
    if tmpfd =? -1 then (-1, s1) else (0, (exec (sys_close tmpfd) s1).2).
Proof.
  unfold mknod, creation_call; cbn.
  destruct (exec _ s) as [tmpfd s1]; cbn.
  destruct (tmpfd =? -1); cbn; [done|].
  by destruct (exec (sys_close tmpfd) s1).
Qed.

Lemma run_mknodat fd path mode dev s :
  run (mknodat fd path mode dev) s =
    let '(tmpfd, s1) := exec (creation_call_at fd path mode) s in
    if tmpfd =? -1 then (-1, s1) else (0, (exec (sys_close tmpfd) s1).2).
Proof.
  unfold mknodat, creation_call_at; cbn.
  destruct (exec _ s) as [tmpfd s1]; cbn.
  destruct (tmpfd =? -1); cbn; [done|].
  by destruct (exec (sys_close tmpfd) s1).
Qed.

Lemma trace_mknod path mode dev s :
  trace (mknod path mode dev) s =
    let '(tmpfd, s1) := exec (creation_call path mode) s in
    (creation_call path mode, tmpfd) ::
    (if tmpfd =? -1 then [] else [(sys_close tmpfd, (exec (sys_close tmpfd) s1).1)]).
Proof.
  unfold mknod, creation_call; cbn.
  destruct (exec _ s) as [tmpfd s1]; cbn.
  destruct (tmpfd =? -1); cbn; [done|].
  by destruct (exec (sys_close tmpfd) s1).
Qed.

Lemma trace_mknodat fd path mode dev s :
  trace (mknodat fd path mode dev) s =
    let '(tmpfd, s1) := exec (creation_call_at fd path mode) s in
    (creation_call_at fd path mode, tmpfd) ::
    (if tmpfd =? -1 then [] else [(sys_close tmpfd, (exec (sys_close tmpfd) s1).1)]).
Proof.
  unfold mknodat, creation_call_at; cbn.
  destruct (exec _ s) as [tmpfd s1]; cbn.
  destruct (tmpfd =? -1); cbn; [done|].
  by destruct (exec (sys_close tmpfd) s1).
Qed.
End AnyOS.

(** ** Facts about the reference model *)

Lemma first_free_spec (t : gmap nat ofile) (fuel n : nat) :
  (∀ i, (i < n)%nat → is_Some (t !! i)) →
  (n + fuel)%nat = size t →
  t !! first_free t n fuel = None.
Proof.
  revert n; induction fuel as [|fuel IH]; intros n Hlow Hsz; cbn.
  - destruct (t !! n) as [f|] eqn:Hn; [|done].
    assert (Hsub : set_seq (C := gset nat) 0 (S n) ⊆ dom t).
    { intros i [_ Hi]%elem_of_set_seq. apply elem_of_dom.
      destruct (decide (i = n)) as [->|]; [by eexists|apply Hlow; lia]. }
    apply subseteq_size in Hsub.
    rewrite size_set_seq, size_dom in Hsub. lia.
  - case_bool_decide; [done|].
    apply IH; [|lia].
    intros i Hi. destruct (decide (i = n)) as [->|]; [|apply Hlow; lia].
    by destruct (t !! n); [eexists|].
Qed.

Lemma lowest_free_spec (t : gmap nat ofile) : t !! lowest_free t = None.
Proof. apply first_free_spec; [lia|done]. Qed.

Lemma install_close (k : kernel) (key : list string) (oflag : Z) :
  let '(fd, k') := install k key oflag in
  0 ≤ fd ∧ close_fd k' fd = (inr 0, k).
Proof.
  unfold install, close_fd; cbn. split; [lia|].
  destruct (Z.ltb_spec (Z.of_nat (lowest_free (k_fd k))) 0) as [?|_]; [lia|].
  rewrite Nat2Z.id, lookup_insert_eq.
  rewrite delete_insert_id by apply lowest_free_spec.
  by destruct k.
Qed.

Lemma land_lor_same_l (a b : Z) : Z.land (Z.lor a b) a = a.
Proof.
  apply Z.bits_inj'; intros n _.
  rewrite Z.land_spec, Z.lor_spec. by destruct (Z.testbit a n), (Z.testbit b n).
Qed.

Lemma land_lor_same_r (a b : Z) : Z.land (Z.lor a b) b = b.
Proof. rewrite Z.lor_comm. apply land_lor_same_l. Qed.

Lemma first_free_le (t : gmap nat ofile) (fuel n : nat) :
  (first_free t n fuel ≤ n + fuel)%nat.
Proof.
  revert n; induction fuel as [|fuel IH]; intros n; cbn; [lia|].
  case_bool_decide; [lia|]. specialize (IH (S n)). lia.
Qed.

Lemma lowest_free_le (t : gmap nat ofile) : (lowest_free t ≤ size t)%nat.
Proof. apply (first_free_le t (size t) 0). Qed.

Section PosixFacts.
Context `{fcntl_h}.

Lemma has_O_CREAT : has_flag (Z.lor O_CREAT O_EXCL) O_CREAT = true.
Proof.
  unfold has_flag. rewrite land_lor_same_l.
  pose proof O_CREAT_nonzero. by destruct (Z.eqb_spec O_CREAT 0).
Qed.

Lemma has_O_EXCL : has_flag (Z.lor O_CREAT O_EXCL) O_EXCL = true.
Proof.
  unfold has_flag. rewrite land_lor_same_r.
  pose proof O_EXCL_nonzero. by destruct (Z.eqb_spec O_EXCL 0).
Qed.

(** What an exclusive creation does, by what the attempt comes to. *)
Lemma open_from_excl (k : kernel) (dir : error + list string) (path : cstr) (mode : mode_t) :
  open_from k dir path (Z.lor O_CREAT O_EXCL) mode =
    match attempt k dir path with
    | inl e => (inl e, k)
    | inr key =>
        let '(fd, k') := install (creat k key mode) key (Z.lor O_CREAT O_EXCL) in
        (inr fd, k')
    end.
Proof.
  unfold open_from, attempt. destruct path as [p|]; [|done].
  rewrite has_O_CREAT, has_O_EXCL; cbn.
  case_bool_decide; [done|].
  destruct (k_path_max k <=? String.length p)%nat; [done|].
  destruct (table_full k); [done|].
  destruct (if is_absolute p then _ else _) as [e|d]; [done|].
  destruct (trailing_slash p && ordinary_last (components p)); [done|].
  destruct (namei k d p) as [key n|key parent|e]; [done| |done].
  by destruct (may_write k parent).
Qed.

(** The creation followed by [close], as the two bodies perform them. *)
Lemma shim_expected (c : syscall) (s : process) dir path mode :
  kexec c (p_kernel s) =
    open_from (p_kernel s) dir path (Z.lor O_CREAT O_EXCL) mode →
  (let '(tmpfd, s1) := exec c s in
   if tmpfd =? -1 then (-1, s1) else (0, (exec (sys_close tmpfd) s1).2))
  = expected s dir path mode.
Proof.
  intros Hc. cbn [exec posix]. rewrite Hc, open_from_excl. unfold expected.
  destruct (attempt (p_kernel s) dir path) as [e|key]; [done|].
  pose proof (install_close (creat (p_kernel s) key mode) key (Z.lor O_CREAT O_EXCL)) as Hi.
  destruct (install _ _ _) as [fd k']. destruct Hi as [Hfd Hclose]. cbn.
  destruct (Z.eqb_spec fd (-1)); [lia|]. cbn. by rewrite Hclose.
Qed.

Lemma run_mknod_expected (s : process) path mode dev :
  run (mknod path mode dev) s = expected s (inr (k_cwd (p_kernel s))) path mode.
Proof. rewrite run_mknod. by apply shim_expected. Qed.

Lemma run_mknodat_expected (s : process) fd path mode dev :
  run (mknodat fd path mode dev) s = expected s (dir_of_fd (p_kernel s) fd) path mode.
Proof. rewrite run_mknodat. by apply shim_expected. Qed.

(** The calls issued, by what the attempt comes to. *)
Lemma shim_trace (c : syscall) (s : process) dir path mode :
  kexec c (p_kernel s) =
    open_from (p_kernel s) dir path (Z.lor O_CREAT O_EXCL) mode →
  let t :=
    let '(tmpfd, s1) := exec c s in
    (c, tmpfd) ::
    (if tmpfd =? -1 then [] else [(sys_close tmpfd, (exec (sys_close tmpfd) s1).1)]) in
  t = [(c, -1)] ∨ ∃ tmpfd, tmpfd ≠ -1 ∧ t = [(c, tmpfd); (sys_close tmpfd, 0)].
Proof.
  intros Hc. cbn [exec posix]. rewrite Hc, open_from_excl.
  destruct (attempt (p_kernel s) dir path) as [e|key]; [by left|].
  pose proof (install_close (creat (p_kernel s) key mode) key (Z.lor O_CREAT O_EXCL)) as Hi.
  destruct (install _ _ _) as [fd k']. destruct Hi as [Hfd Hclose]. cbn.
  destruct (Z.eqb_spec fd (-1)); [lia|]. cbn. rewrite Hclose. cbn.
  right. by exists fd.
Qed.
End PosixFacts.

(** [dev] occurs nowhere in the two bodies. *)
Lemma dev_is_unused `{fcntl_h} (fd : Z) (path : cstr) (mode : mode_t) (d1 d2 : dev_t) :
  mknod path mode d1 = mknod path mode d2 ∧
  mknodat fd path mode d1 = mknodat fd path mode d2.
Proof. done. Qed.

(** ** The two stubs *)

(** C6.  Every call of [_mknod], whatever arguments the caller pushed,
    returns the success code 0 without issuing a single system call, so
    the state of the operating system (and with it the file system) after
    the call is the state before it. *)
Theorem _mknod_is_noop {St : Type} `{OS St} (args : list Z) (s : St) :
  run (_mknod args) s = (0, s) ∧
  trace (_mknod args) s = [] ∧
  outcome_of (run (_mknod args) s) = Success.
Proof. done. Qed.

(** C5.  For every version, every path (the null pointer and the empty
    string included), every mode and every dev, [_xmknod] returns the
    success code 0, issues no system call and leaves the state of the
    operating system as it was: nothing is validated and nothing can
    fail. *)
Theorem _xmknod_is_noop {St : Type} `{OS St}
    (version : Z) (path : cstr) (mode : mode_t) (dev : dev_t) (s : St) :
  run (_xmknod version path mode dev) s = (0, s) ∧
  trace (_xmknod version path mode dev) s = [] ∧
  outcome_of (run (_xmknod version path mode dev) s) = Success.
Proof. done. Qed.

(** ** Failure and success of the creation call, on any operating system *)

(** C4.  Whenever the exclusive creation fails (returns -1), [mknod]
    returns -1 in exactly the state the failed call left, so the caller
    sees a failure carrying the [errno] that call stored; the creation is
    the only system call issued (no retry, no clean-up).  The same holds
    for [mknodat] and [openat]. *)
Theorem creation_failure_propagates `{fcntl_h} {St : Type} `{OS St}
    (fd : Z) (path : cstr) (mode : mode_t) (dev : dev_t) (s : St) :
  ((exec (creation_call path mode) s).1 = -1 →
     run (mknod path mode dev) s = (-1, (exec (creation_call path mode) s).2) ∧
     outcome_of (run (mknod path mode dev) s) =
       Failure (errno (exec (creation_call path mode) s).2) ∧
     trace (mknod path mode dev) s = [(creation_call path mode, -1)]) ∧
  ((exec (creation_call_at fd path mode) s).1 = -1 →
     run (mknodat fd path mode dev) s = (-1, (exec (creation_call_at fd path mode) s).2) ∧
     outcome_of (run (mknodat fd path mode dev) s) =
       Failure (errno (exec (creation_call_at fd path mode) s).2) ∧
     trace (mknodat fd path mode dev) s = [(creation_call_at fd path mode, -1)]).
Proof.
  split; intros Hfail.
  - rewrite run_mknod, trace_mknod.
    destruct (exec (creation_call path mode) s) as [r s1]; cbn in *; subst r.
    by cbn.
  - rewrite run_mknodat, trace_mknodat.
    destruct (exec (creation_call_at fd path mode) s) as [r s1]; cbn in *; subst r.
    by cbn.
Qed.

Lemma creation_failure_propagates_witness :
  outcome_of (H := posix (H := illumos))
    (run (H := posix (H := illumos))
                (mknod (H := illumos) (Some "/tmp/old") 0x21a4 7) sample)
    = Failure (Some EEXIST) ∧
  outcome_of (H := posix (H := illumos))
    (run (H := posix (H := illumos))
                (mknodat (H := illumos) 5 (Some "x") 0x21a4 7) sample)
    = Failure (Some EBADF).
Proof.
  destruct (creation_failure_propagates (H := illumos) (H0 := posix (H := illumos))
              5 (Some "/tmp/old") 0x21a4 7 sample)
    as [[_ [Hm _]] _]; [vm_compute; reflexivity|].
  destruct (creation_failure_propagates (H := illumos) (H0 := posix (H := illumos))
              5 (Some "x") 0x21a4 7 sample)
    as [_ [_ [Hat _]]]; [vm_compute; reflexivity|].
  split; [rewrite Hm | rewrite Hat]; vm_compute; reflexivity.
Defined.

(** C8.  Whenever the exclusive creation succeeds (returns a descriptor
    other than -1), [mknod] returns 0 and the caller sees a success,
    whatever [close] returns on that descriptor: the value [close]
    returns is dropped, and the state after the call is the one [close]
    left.  The same holds for [mknodat]. *)
Theorem close_result_discarded `{fcntl_h} {St : Type} `{OS St}
    (fd : Z) (path : cstr) (mode : mode_t) (dev : dev_t) (s : St) :
  (let o := exec (creation_call path mode) s in
   o.1 ≠ -1 →
     run (mknod path mode dev) s = (0, (exec (sys_close o.1) o.2).2) ∧
     outcome_of (run (mknod path mode dev) s) = Success) ∧
  (let o := exec (creation_call_at fd path mode) s in
   o.1 ≠ -1 →
     run (mknodat fd path mode dev) s = (0, (exec (sys_close o.1) o.2).2) ∧
     outcome_of (run (mknodat fd path mode dev) s) = Success).
Proof.
  split; intros o Hok; subst o.
  - rewrite run_mknod.
    destruct (exec (creation_call path mode) s) as [r s1]; cbn in *.
    by destruct (Z.eqb_spec r (-1)).
  - rewrite run_mknodat.
    destruct (exec (creation_call_at fd path mode) s) as [r s1]; cbn in *.
    by destruct (Z.eqb_spec r (-1)).
Qed.

(** On a system whose [close] fails with EIO, both functions still
    return 0. *)
Lemma close_result_discarded_witness :
  let o := exec (OS := posix_eio (H := linux))
             (creation_call (H := linux) (Some "/tmp/new") 0x1a4) sample in
  let o' := exec (OS := posix_eio (H := linux))
              (creation_call_at (H := linux) 3 (Some "new") 0x1a4) sample in
  (exec (OS := posix_eio (H := linux)) (sys_close o.1) o.2).1 = -1 ∧
  (run (H := posix_eio (H := linux))
     (mknod (H := linux) (Some "/tmp/new") 0x1a4 0) sample).1 = 0 ∧
  (exec (OS := posix_eio (H := linux)) (sys_close o'.1) o'.2).1 = -1 ∧
  (run (H := posix_eio (H := linux))
     (mknodat (H := linux) 3 (Some "new") 0x1a4 0) sample).1 = 0.
Proof.
  intros o o'.
  destruct (close_result_discarded (H := linux) (H0 := posix_eio (H := linux))
              3 (Some "/tmp/new") 0x1a4 0 sample)
    as [[Hm _] _]; [vm_compute; discriminate|].
  destruct (close_result_discarded (H := linux) (H0 := posix_eio (H := linux))
              3 (Some "new") 0x1a4 0 sample)
    as [_ [Hat _]]; [vm_compute; discriminate|].
  split; [vm_compute; reflexivity|].
  split; [by rewrite Hm|].
  split; [vm_compute; reflexivity|].
  by rewrite Hat.
Defined.

(** ** Return values and calls issued, on any operating system *)

(** X1.  On every operating system, [mknod] and [mknodat] return 0 or
    -1, and -1 exactly when the creation call returned -1; [close] is
    called exactly when the creation did not return -1, once, on the
    descriptor the creation returned, and nothing else is called. *)
Theorem shim_returns_and_calls `{fcntl_h} {St : Type} `{OS St}
    (fd : Z) (path : cstr) (mode : mode_t) (dev : dev_t) (s : St) :
  (let o := exec (creation_call path mode) s in
   let r := run (mknod path mode dev) s in
   (r.1 = 0 ∨ r.1 = -1) ∧
   (r.1 = -1 ↔ o.1 = -1) ∧
   trace (mknod path mode dev) s =
     (creation_call path mode, o.1) ::
     (if o.1 =? -1 then [] else [(sys_close o.1, (exec (sys_close o.1) o.2).1)])) ∧
  (let o := exec (creation_call_at fd path mode) s in
   let r := run (mknodat fd path mode dev) s in
   (r.1 = 0 ∨ r.1 = -1) ∧
   (r.1 = -1 ↔ o.1 = -1) ∧
   trace (mknodat fd path mode dev) s =
     (creation_call_at fd path mode, o.1) ::
     (if o.1 =? -1 then [] else [(sys_close o.1, (exec (sys_close o.1) o.2).1)])).
Proof.
  split; cbn zeta.
  - rewrite run_mknod, trace_mknod.
    destruct (exec (creation_call path mode) s) as [r s1]; cbn.
    destruct (Z.eqb_spec r (-1)); cbn; (split; [auto|]); (split; [|done]);
      split; intros; first [done | lia].
  - rewrite run_mknodat, trace_mknodat.
    destruct (exec (creation_call_at fd path mode) s) as [r s1]; cbn.
    destruct (Z.eqb_spec r (-1)); cbn; (split; [auto|]); (split; [|done]);
      split; intros; first [done | lia].
Qed.

(** ** The shim on the reference model *)





(** Resolution only enters directories that exist, so a file added
    where there was none does not change it. *)
Lemma enter_insert (k k' : kernel) key n cur :
  k_priv k' = k_priv k →
  k_fs k' = <[key := n]> (k_fs k) →
  k_fs k !! key = None →
  enter k cur = None → enter k' cur = None.
Proof.
  intros Hpriv Hfs Hkey. unfold enter, may_search.
  destruct (k_fs k !! cur) as [d|] eqn:Hd; [|done].
  assert (key ≠ cur) by congruence.
  by rewrite Hfs, lookup_insert_ne, Hd, Hpriv.
Qed.

Lemma walk_insert (k k' : kernel) key n dir names :
  k_priv k' = k_priv k →
  k_name_max k' = k_name_max k →
  k_fs k' = <[key := n]> (k_fs k) →
  k_fs k !! key = None →
  ∀ target, walk k dir names = inr target → walk k' dir names = inr target.
Proof.
  intros Hpriv Hmax Hfs Hkey. revert dir.
  induction names as [|c rest IH]; intros dir target; cbn [walk]; [done|].
  destruct (enter k dir) as [e|] eqn:Henter; [done|].
  rewrite (enter_insert k k' key n dir) by done. rewrite Hmax.
  destruct (k_name_max k <? String.length c)%nat; [done|]. apply IH.
Qed.

Lemma namei_Absent_inv (k : kernel) (d : list string) (p : string) key parent :
  namei k d p = Absent key parent →
  k_fs k !! key = None ∧ k_fs k !! removelast key = Some parent ∧
  is_dir parent = true ∧ ordinary_last (components p) = true.
Proof.
  unfold namei. case_bool_decide; [done|].
  destruct (k_path_max k <=? String.length p)%nat; [done|].
  destruct (walk k d (components p)) as [e|key']; [done|].
  destruct (k_fs k !! key') as [n|] eqn:Hkey.
  { by destruct (trailing_slash p && negb (is_dir n)). }
  destruct (ordinary_last (components p)); [|done]. cbn.
  destruct (k_fs k !! removelast key') as [n|] eqn:Hparent; [|done].
  destruct (is_dir n) eqn:Hdir; [|done]. by intros [= <- <-].
Qed.

Lemma namei_insert (k k' : kernel) key n dir p parent :
  k_priv k' = k_priv k →
  k_name_max k' = k_name_max k → k_path_max k' = k_path_max k →
  k_fs k' = <[key := n]> (k_fs k) →
  trailing_slash p = false →
  namei k dir p = Absent key parent →
  namei k' dir p = Found key n.
Proof.
  intros Hpriv Hname Hpath Hfs Hslash. unfold namei. case_bool_decide; [done|].
  rewrite Hpath. destruct (k_path_max k <=? String.length p)%nat; [done|].
  destruct (walk k dir (components p)) as [e|key'] eqn:Hwalk; [done|].
  destruct (k_fs k !! key') as [n'|] eqn:Hkey'.
  { by destruct (trailing_slash p && negb (is_dir n')). }
  destruct (negb (ordinary_last (components p))); [done|].
  destruct (k_fs k !! removelast key') as [d|]; [|done].
  destruct (is_dir d); [|done]. intros [= -> _].
  erewrite walk_insert by done.
  by rewrite Hfs, lookup_insert_eq, Hslash.
Qed.

(** A successful attempt names a free place in a writable directory,
    through a path that ends in an ordinary name without a slash. *)
Lemma attempt_inr (k : kernel) dir path key :
  attempt k dir path = inr key →
  ∃ p d parent,
    path = Some p ∧
    (if is_absolute p then inr [] else dir) = inr d ∧
    namei k d p = Absent key parent ∧
    may_write k parent = true ∧
    table_full k = false ∧
    trailing_slash p = false.
Proof.
  unfold attempt. destruct path as [p|]; [|done].
  case_bool_decide; [done|].
  destruct (k_path_max k <=? String.length p)%nat; [done|].
  destruct (table_full k); [done|].
  destruct (if is_absolute p then _ else _) as [e|d] eqn:Hd; [done|].
  destruct (trailing_slash p && ordinary_last (components p)) eqn:Hslash; [done|].
  destruct (namei k d p) as [key' n|key' parent|e] eqn:Hn; [done| |done].
  destruct (may_write k parent) eqn:Hw; [|done]. intros [= ->].
  exists p, d, parent.
  destruct (namei_Absent_inv _ _ _ _ _ Hn) as (_ & _ & _ & Hlast).
  rewrite Hlast, andb_true_r in Hslash. done.
Qed.

Lemma attempt_free (k : kernel) dir path key :
  attempt k dir path = inr key → k_fs k !! key = None.
Proof.
  intros (p & d & parent & _ & _ & Hn & _)%attempt_inr.
  by destruct (namei_Absent_inv _ _ _ _ _ Hn).
Qed.

Lemma start_dir_inr (k : kernel) p :
  (if is_absolute p then inr [] else inr (k_cwd k)) = inr (B := list string) (A := error) (start_dir k p).
Proof. unfold start_dir. by destruct (is_absolute p). Qed.

Section Frame.
Context `{fcntl_h}.

Lemma expected_descriptors (s : process) dir path mode :
  k_fd (p_kernel (expected s dir path mode).2) = k_fd (p_kernel s).
Proof. unfold expected. by destruct (attempt (p_kernel s) dir path). Qed.

Lemma expected_new_entries (s : process) dir path mode key n :
  k_fs (p_kernel (expected s dir path mode).2) !! key = Some n →
  k_fs (p_kernel s) !! key = None →
  n = new_file (p_kernel s) mode.
Proof.
  unfold expected. destruct (attempt (p_kernel s) dir path) as [e|key']; cbn.
  - congruence.
  - destruct (decide (key' = key)) as [->|Hne].
    + rewrite lookup_insert_eq. congruence.
    + rewrite lookup_insert_ne by done. congruence.
Qed.

(** C9.  After every call of [mknod] or [mknodat] the descriptor table
    of the process is what it was before the call.  The calls issued are
    either the failed creation alone (no descriptor was obtained), or the
    creation followed by a [close] of the very descriptor it returned,
    and that [close] succeeds. *)
Theorem descriptor_released
    (s : process) (fd : Z) (path : cstr) (mode : mode_t) (dev : dev_t) :
  (k_fd (p_kernel (run (mknod path mode dev) s).2) = k_fd (p_kernel s) ∧
   (trace (mknod path mode dev) s = [(creation_call path mode, -1)] ∨
    ∃ tmpfd, tmpfd ≠ -1 ∧
      trace (mknod path mode dev) s =
        [(creation_call path mode, tmpfd); (sys_close tmpfd, 0)])) ∧
  (k_fd (p_kernel (run (mknodat fd path mode dev) s).2) = k_fd (p_kernel s) ∧
   (trace (mknodat fd path mode dev) s = [(creation_call_at fd path mode, -1)] ∨
    ∃ tmpfd, tmpfd ≠ -1 ∧
      trace (mknodat fd path mode dev) s =
        [(creation_call_at fd path mode, tmpfd); (sys_close tmpfd, 0)])).
Proof.
  split; (split; [|]).
  - rewrite run_mknod_expected. apply expected_descriptors.
  - rewrite trace_mknod. by eapply shim_trace.
  - rewrite run_mknodat_expected. apply expected_descriptors.
  - rewrite trace_mknodat. by eapply shim_trace.
Qed.

Lemma new_file_perm_bits (k : kernel) (m1 m2 : mode_t) :
  perm_bits m1 = perm_bits m2 → new_file k m1 = new_file k m2.
Proof. unfold new_file, perm_bits. by intros ->. Qed.

Lemma expected_perm_bits (s : process) dir path (m1 m2 : mode_t) :
  perm_bits m1 = perm_bits m2 →
  expected s dir path m1 = expected s dir path m2.
Proof.
  intros Hm. unfold expected, creat. by rewrite (new_file_perm_bits _ m1 m2 Hm).
Qed.

(** C7.  Two calls of [mknod] from the same state on the same path,
    whose modes agree on the permission bits (07777) and differ in any
    way in the node-type bits, and whose dev arguments differ in any way,
    return the same value and leave the same state; likewise for
    [mknodat] with the same descriptor and path.  Every entry that exists
    after such a call and did not exist before is a regular file. *)
Theorem node_type_and_dev_ignored
    (s : process) (fd : Z) (path : cstr) (m1 m2 : mode_t) (d1 d2 : dev_t) :
  perm_bits m1 = perm_bits m2 →
  run (mknod path m1 d1) s = run (mknod path m2 d2) s ∧
  run (mknodat fd path m1 d1) s = run (mknodat fd path m2 d2) s ∧
  (∀ key n,
     k_fs (p_kernel (run (mknod path m1 d1) s).2) !! key = Some n →
     k_fs (p_kernel s) !! key = None →
     i_type n = S_IFREG) ∧
  (∀ key n,
     k_fs (p_kernel (run (mknodat fd path m1 d1) s).2) !! key = Some n →
     k_fs (p_kernel s) !! key = None →
     i_type n = S_IFREG).
Proof.
  intros Hm. split_and!.
  - rewrite !run_mknod_expected. by apply expected_perm_bits.
  - rewrite !run_mknodat_expected. by apply expected_perm_bits.
  - intros key n. rewrite run_mknod_expected. intros Hn Hnone.
    by rewrite (expected_new_entries _ _ _ _ _ _ Hn Hnone).
  - intros key n. rewrite run_mknodat_expected. intros Hn Hnone.
    by rewrite (expected_new_entries _ _ _ _ _ _ Hn Hnone).
Qed.
End Frame.

(** A character-device request (S_IFCHR, device 0x103) and a plain
    request with the same permission bits. *)
Lemma node_type_and_dev_ignored_witness :
  run (H := posix (H := illumos)) (mknod (H := illumos) (Some "/tmp/tty") 0x21b6 0x103) sample
  = run (H := posix (H := illumos)) (mknod (H := illumos) (Some "/tmp/tty") 0x1b6 0) sample.
Proof.
  apply (node_type_and_dev_ignored (H := illumos) sample 0 (Some "/tmp/tty") 0x21b6 0x1b6 0x103 0).
  vm_compute. reflexivity.
Defined.

(** ** Creation at a path *)

Section Creation.
Context `{fcntl_h}.

Lemma expected_success (s : process) dir path mode :
  (expected s dir path mode).1 = 0 →
  ∃ key, attempt (p_kernel s) dir path = inr key ∧
    expected s dir path mode =
      (0, {| p_kernel := creat (p_kernel s) key mode; p_errno := p_errno s |}).
Proof.
  unfold expected. destruct (attempt (p_kernel s) dir path) as [e|key]; [done|].
  intros _. by exists key.
Qed.

Lemma expected_failure (s : process) dir path mode :
  (expected s dir path mode).1 ≠ 0 →
  ∃ e, attempt (p_kernel s) dir path = inl e ∧
    expected s dir path mode =
      (-1, {| p_kernel := p_kernel s; p_errno := Some e |}).
Proof.
  unfold expected. destruct (attempt (p_kernel s) dir path) as [e|key]; [|done].
  intros _. by exists e.
Qed.



(** C2.  Let [p] be a path that resolves to an existing entry [n].  Then
    for every [mode] and [dev], [mknod p mode dev] returns -1 and the
    kernel state after the call (every file with its type, permissions
    and contents, every descriptor) is the state before it; in
    particular [p] still resolves to [n].  The error is EEXIST when [p]
    ends in an ordinary name with no slash after it and a descriptor
    number is free; otherwise an earlier check of [open] may answer. *)
Theorem mknod_existing_entry_fails
    (s : process) (p : string) (mode : mode_t) (dev : dev_t)
    (key : list string) (n : inode) :
  lookup_path (p_kernel s) p = Found key n →
  let r := run (mknod (Some p) mode dev) s in
  r.1 = -1 ∧
  p_kernel r.2 = p_kernel s ∧
  lookup_path (p_kernel r.2) p = Found key n ∧
  (plain_path p = true → table_full (p_kernel s) = false →
     outcome_of r = Failure (Some EEXIST)).
Proof.
  intros Hn r. subst r. rewrite run_mknod_expected.
  assert (∃ e, attempt (p_kernel s) (inr (k_cwd (p_kernel s))) (Some p) = inl e ∧
               (plain_path p = true → table_full (p_kernel s) = false → e = EEXIST))
    as (e & He & Hplain).
  { unfold attempt. rewrite start_dir_inr. unfold lookup_path in Hn.
    assert (p ≠ "" ∧ (k_path_max (p_kernel s) <=? String.length p)%nat = false)
      as [Hne Hlen].
    { unfold namei in Hn. case_bool_decide; [done|].
      by destruct (k_path_max (p_kernel s) <=? String.length p)%nat. }
    rewrite bool_decide_false, Hlen by done.
    unfold plain_path.
    destruct (table_full (p_kernel s)); [by eexists|].
    destruct (trailing_slash p); cbn.
    - destruct (ordinary_last (components p)); [by eexists|].
      rewrite Hn. by eexists.
    - rewrite Hn. by eexists. }
  unfold expected. rewrite He. cbn. split_and!; [done..|].
  intros Hp Hfree. unfold outcome_of; cbn. by rewrite (Hplain Hp Hfree).
Qed.
End Creation.


(** An existing directory named with a trailing slash: [mknod] fails
    with EISDIR, not EEXIST. *)
Lemma mknod_existing_entry_not_eexist :
  lookup_path sample_kernel "/tmp/" = Found ["tmp"] (dir_node 0x3ff) ∧
  outcome_of (H := posix (H := linux))
    (run (H := posix (H := linux)) (mknod (H := linux) (Some "/tmp/") 0x1a4 0) sample)
    = Failure (Some EISDIR).
Proof. split; vm_compute; reflexivity. Qed.


Lemma mknod_existing_entry_fails_witness :
  let r := run (H := posix (H := linux))
             (mknod (H := linux) (Some "../dev/./null") 0x61ff 0x103) sample in
  r.1 = -1 ∧
  outcome_of (H := posix (H := linux)) r = Failure (Some EEXIST) ∧
  p_kernel r.2 = sample_kernel.
Proof.
  destruct (mknod_existing_entry_fails (H := linux) sample "../dev/./null" 0x61ff 0x103
              ["dev"; "null"] {| i_type := S_IFCHR; i_perm := 0x1b6; i_data := [] |})
    as (Hr & Hk & _ & Ho); [vm_compute; reflexivity|].
  split; [exact Hr|]. split; [|exact Hk].
  apply Ho; vm_compute; reflexivity.
Defined.

(** ** Resolution relative to a descriptor *)

Section RelativeTo.
Context `{fcntl_h}.





End RelativeTo.


(** * Further properties of the four functions *)

(** ** Failures on the reference model *)

Section Outcome.
Context `{fcntl_h}.

(** X2.  A call of [mknod] or [mknodat] that returns -1 leaves the
    kernel state (files and descriptors) as it was and [errno] set; a
    call that returns 0 leaves [errno] as it was. *)
Theorem shim_failure_and_errno
    (s : process) (fd : Z) (path : cstr) (mode : mode_t) (dev : dev_t) :
  (let r := run (mknod path mode dev) s in
   (r.1 = -1 → p_kernel r.2 = p_kernel s ∧ ∃ e, p_errno r.2 = Some e) ∧
   (r.1 = 0 → p_errno r.2 = p_errno s)) ∧
  (let r := run (mknodat fd path mode dev) s in
   (r.1 = -1 → p_kernel r.2 = p_kernel s ∧ ∃ e, p_errno r.2 = Some e) ∧
   (r.1 = 0 → p_errno r.2 = p_errno s)).
Proof.
  split; cbn zeta.
  - rewrite run_mknod_expected. unfold expected.
    destruct (attempt _ _ _) as [e|key]; cbn; split; try done. by eauto.
  - rewrite run_mknodat_expected. unfold expected.
    destruct (attempt _ _ _) as [e|key]; cbn; split; try done. by eauto.
Qed.

(** X3.  A null path makes [mknod], and [mknodat] with any descriptor,
    return -1 with EFAULT; an empty path makes [mknod] return -1 with
    ENOENT.  The kernel state is unchanged in each case. *)
Theorem null_and_empty_path
    (s : process) (fd : Z) (mode : mode_t) (dev : dev_t) :
  run (mknod None mode dev) s =
    (-1, {| p_kernel := p_kernel s; p_errno := Some EFAULT |}) ∧
  run (mknodat fd None mode dev) s =
    (-1, {| p_kernel := p_kernel s; p_errno := Some EFAULT |}) ∧
  run (mknod (Some "") mode dev) s =
    (-1, {| p_kernel := p_kernel s; p_errno := Some ENOENT |}).
Proof.
  split_and!.
  - by rewrite run_mknod_expected.
  - by rewrite run_mknodat_expected.
  - by rewrite run_mknod_expected.
Qed.

(** X4.  With a relative, non-empty path that is not too long and a free
    descriptor number, [mknodat] on a descriptor that is neither
    [AT_FDCWD] nor open returns -1 with EBADF, and on an open descriptor
    of something that is not a directory returns -1 with ENOTDIR; the
    kernel state is unchanged. *)
Theorem mknodat_bad_descriptor
    (s : process) (fd : Z) (p : string) (mode : mode_t) (dev : dev_t) :
  is_absolute p = false →
  p ≠ "" →
  (String.length p < k_path_max (p_kernel s))%nat →
  table_full (p_kernel s) = false →
  fd ≠ AT_FDCWD →
  (fd < 0 ∨ k_fd (p_kernel s) !! Z.to_nat fd = None →
     run (mknodat fd (Some p) mode dev) s =
       (-1, {| p_kernel := p_kernel s; p_errno := Some EBADF |})) ∧
  (∀ f n,
     0 ≤ fd →
     k_fd (p_kernel s) !! Z.to_nat fd = Some f →
     k_fs (p_kernel s) !! of_node f = Some n →
     is_dir n = false →
     run (mknodat fd (Some p) mode dev) s =
       (-1, {| p_kernel := p_kernel s; p_errno := Some ENOTDIR |})).
Proof.
  intros Hrel Hne Hlen Hfree Hfd.
  rewrite run_mknodat_expected. unfold expected, attempt, dir_of_fd.
  rewrite bool_decide_false, Hfree, Hrel by done.
  destruct (Nat.leb_spec (k_path_max (p_kernel s)) (String.length p)); [lia|].
  destruct (Z.eqb_spec fd AT_FDCWD) as [|_]; [done|].
  split.
  - intros [Hneg|Hclosed].
    + by destruct (Z.ltb_spec fd 0); [|lia].
    + destruct (fd <? 0); [done|]. by rewrite Hclosed.
  - intros f n Hpos Hf Hn Hdir.
    destruct (Z.ltb_spec fd 0); [lia|]. by rewrite Hf, Hn, Hdir.
Qed.

(** X5.  With [AT_FDCWD] as descriptor, [mknodat] is [mknod]: same value
    returned and same state left, for every path (null and relative
    included), mode and dev. *)
Theorem mknodat_at_fdcwd
    (s : process) (path : cstr) (mode : mode_t) (dev : dev_t) :
  run (mknodat AT_FDCWD path mode dev) s = run (mknod path mode dev) s.
Proof.
  rewrite run_mknod_expected, run_mknodat_expected.
  unfold dir_of_fd. by rewrite Z.eqb_refl.
Qed.
End Outcome.

Lemma mknodat_bad_descriptor_witness :
  run (H := posix (H := linux)) (mknodat (H := linux) 7 (Some "x") 0x1a4 0) sample
    = (-1, {| p_kernel := sample_kernel; p_errno := Some EBADF |}) ∧
  run (H := posix (H := linux)) (mknodat (H := linux) 0 (Some "x") 0x1a4 0) sample
    = (-1, {| p_kernel := sample_kernel; p_errno := Some ENOTDIR |}).
Proof.
  destruct (mknodat_bad_descriptor (H := linux) sample 7 "x" 0x1a4 0) as [Hbad _];
    [reflexivity|discriminate|vm_compute; lia|vm_compute; reflexivity|discriminate|].
  destruct (mknodat_bad_descriptor (H := linux) sample 0 "x" 0x1a4 0) as [_ Hnotdir];
    [reflexivity|discriminate|vm_compute; lia|vm_compute; reflexivity|discriminate|].
  split.
  - apply Hbad. right. vm_compute. reflexivity.
  - apply (Hnotdir {| of_node := ["dev"; "null"]; of_flag := 0 |}
             {| i_type := S_IFCHR; i_perm := 0x1b6; i_data := [] |});
      [lia|vm_compute; reflexivity..].
Defined.

(** ** What a creation leaves behind *)

(** Once the file is there, a further attempt on the path finds it, if
    it gets a descriptor number. *)
Lemma attempt_late (k k' : kernel) dir p key n :
  attempt k dir (Some p) = inr key →
  k_fs k' = <[key := n]> (k_fs k) →
  k_priv k' = k_priv k → k_name_max k' = k_name_max k → k_path_max k' = k_path_max k →
  attempt k' dir (Some p) = inl (if table_full k' then EMFILE else EEXIST).
Proof.
  intros Hk Hfs Hpriv Hname Hpath.
  destruct (attempt_inr _ _ _ _ Hk) as (p' & d & parent & [= <-] & Hd & Hn & Hw & _ & Hslash).
  revert Hk. unfold attempt. rewrite Hpath, Hd, Hslash. cbn.
  case_bool_decide; [done|].
  destruct (k_path_max k <=? String.length p)%nat; [done|].
  destruct (table_full k); [done|]. intros _.
  destruct (table_full k'); [done|].
  by rewrite (namei_insert k k' key n d p parent).
Qed.

(** A file added at another free place does not change the attempt. *)
Lemma attempt_insert_other (k k' : kernel) dir p key key' n :
  attempt k dir (Some p) = inr key →
  k_fs k' = <[key' := n]> (k_fs k) →
  k_fs k !! key' = None →
  key' ≠ key →
  k_fd k' = k_fd k → k_priv k' = k_priv k → k_nofile k' = k_nofile k →
  k_name_max k' = k_name_max k → k_path_max k' = k_path_max k →
  attempt k' dir (Some p) = inr key.
Proof.
  intros Hk Hfs Hfree Hne Hfd Hpriv Hno Hname Hpath.
  destruct (attempt_inr _ _ _ _ Hk) as (p' & d & parent & [= <-] & Hd & Hn & Hw & _ & Hslash).
  revert Hk. unfold attempt, table_full. rewrite Hpath, Hno, Hfd, Hd, Hslash. cbn.
  case_bool_decide; [done|].
  destruct (k_path_max k <=? String.length p)%nat; [done|].
  destruct (k_nofile k <=? lowest_free (k_fd k))%nat; [done|]. intros _.
  assert (namei k' d p = Absent key parent) as ->.
  { destruct (namei_Absent_inv _ _ _ _ _ Hn) as (Hkey & Hparent & Hdir & Hlast).
    revert Hn. unfold namei. rewrite Hpath. case_bool_decide; [done|].
    destruct (k_path_max k <=? String.length p)%nat; [done|].
    destruct (walk k d (components p)) as [e|key0] eqn:Hwalk; [done|].
    rewrite (walk_insert k k' key' n d _ Hpriv Hname Hfs Hfree _ Hwalk).
    destruct (k_fs k !! key0) as [n0|] eqn:Hkey0.
    { by destruct (trailing_slash p && negb (is_dir n0)). }
    rewrite Hlast. cbn.
    destruct (k_fs k !! removelast key0) as [d0|] eqn:Hparent0; [|done].
    destruct (is_dir d0); [|done]. intros [= -> ->].
    rewrite Hfs, lookup_insert_ne, Hkey0 by done.
    rewrite lookup_insert_ne, Hparent0 by congruence. by rewrite Hdir. }
  unfold may_write in *. by rewrite Hpriv, Hw.
Qed.

(** Without the regular file at [key'], the attempt is the same. *)
Lemma enter_insert_inv (k k' : kernel) key' n cur :
  k_priv k' = k_priv k →
  k_fs k' = <[key' := n]> (k_fs k) →
  is_dir n = false →
  enter k' cur = None → enter k cur = None.
Proof.
  intros Hpriv Hfs Hn. unfold enter, may_search. rewrite Hfs, Hpriv.
  destruct (decide (key' = cur)) as [->|Hne].
  - rewrite lookup_insert_eq, Hn. done.
  - by rewrite lookup_insert_ne.
Qed.

Lemma walk_insert_inv (k k' : kernel) key' n dir names :
  k_priv k' = k_priv k →
  k_name_max k' = k_name_max k →
  k_fs k' = <[key' := n]> (k_fs k) →
  is_dir n = false →
  ∀ target, walk k' dir names = inr target → walk k dir names = inr target.
Proof.
  intros Hpriv Hmax Hfs Hn. revert dir.
  induction names as [|c rest IH]; intros dir target; cbn [walk]; [done|].
  destruct (enter k' dir) as [e|] eqn:Henter; [done|].
  rewrite (enter_insert_inv k k' key' n dir) by done. rewrite Hmax.
  destruct (k_name_max k <? String.length c)%nat; [done|]. apply IH.
Qed.

Lemma attempt_insert_inv (k k' : kernel) dir p key key' n :
  attempt k' dir (Some p) = inr key →
  k_fs k' = <[key' := n]> (k_fs k) →
  is_dir n = false →
  k_fd k' = k_fd k → k_priv k' = k_priv k → k_nofile k' = k_nofile k →
  k_name_max k' = k_name_max k → k_path_max k' = k_path_max k →
  attempt k dir (Some p) = inr key ∧ key' ≠ key.
Proof.
  intros Hk Hfs Hreg Hfd Hpriv Hno Hname Hpath.
  destruct (attempt_inr _ _ _ _ Hk) as (p' & d & parent & [= <-] & Hd & Hn & Hw & _ & Hslash).
  destruct (namei_Absent_inv _ _ _ _ _ Hn) as (Hkey & Hparent & Hdir & Hlast).
  assert (key' ≠ key) as Hne.
  { intros ->. by rewrite Hfs, lookup_insert_eq in Hkey. }
  split; [|done].
  revert Hk. unfold attempt, table_full. rewrite Hpath, Hno, Hfd, Hd, Hslash. cbn.
  case_bool_decide; [done|].
  destruct (k_path_max k <=? String.length p)%nat; [done|].
  destruct (k_nofile k <=? lowest_free (k_fd k))%nat; [done|]. intros _.
  assert (namei k d p = Absent key parent) as ->.
  { revert Hn. unfold namei. rewrite Hpath. case_bool_decide; [done|].
    destruct (k_path_max k <=? String.length p)%nat; [done|].
    destruct (walk k' d (components p)) as [e|key0] eqn:Hwalk; [done|].
    rewrite (walk_insert_inv k k' key' n d _ Hpriv Hname Hfs Hreg _ Hwalk).
    destruct (k_fs k' !! key0) as [n0|] eqn:Hkey0.
    { by destruct (trailing_slash p && negb (is_dir n0)). }
    rewrite Hlast. cbn.
    destruct (k_fs k' !! removelast key0) as [d0|] eqn:Hparent0; [|done].
    destruct (is_dir d0) eqn:Hd0; [|done]. intros [= -> ->].
    rewrite Hfs in Hkey0, Hparent0.
    rewrite lookup_insert_ne in Hkey0 by done. rewrite Hkey0.
    destruct (decide (key' = removelast key)) as [Heq|Hne'].
    - rewrite Heq, lookup_insert_eq in Hparent0. congruence.
    - rewrite lookup_insert_ne in Hparent0 by done. by rewrite Hparent0, Hd0. }
  unfold may_write in *. by rewrite <- Hpriv, Hw.
Qed.

Section Aftermath.
Context `{fcntl_h}.


(** X7.  Once [mknod] has returned 0 on a path, a further [mknod] on
    that path, with any mode and dev, returns -1 with EEXIST and leaves
    the kernel as the first call left it. *)
Theorem second_mknod_fails
    (s : process) (p : string) (m1 m2 : mode_t) (d1 d2 : dev_t) :
  let first := run (mknod (Some p) m1 d1) s in
  first.1 = 0 →
  run (mknod (Some p) m2 d2) first.2 =
    (-1, {| p_kernel := p_kernel first.2; p_errno := Some EEXIST |}).
Proof.
  cbn zeta. rewrite !run_mknod_expected.
  intros (key & Hkey & ->)%expected_success. cbn [snd].
  destruct (attempt_inr _ _ _ _ Hkey) as (_ & _ & _ & _ & _ & _ & _ & Hfree & _).
  unfold expected at 1. cbn [p_kernel p_errno].
  rewrite (attempt_late (p_kernel s) (creat (p_kernel s) key m1) _ p key
             (new_file (p_kernel s) m1)) by done.
  change (table_full (creat (p_kernel s) key m1)) with (table_full (p_kernel s)).
  by rewrite Hfree.
Qed.

(** X8.  If two [mknod] calls succeed one after the other, they also
    succeed in the other order, and the state left is the same. *)
Theorem independent_creations_commute
    (s : process) (p1 p2 : string) (m1 m2 : mode_t) (d1 d2 : dev_t) :
  let s1 := run (mknod (Some p1) m1 d1) s in
  let s12 := run (mknod (Some p2) m2 d2) s1.2 in
  let s2 := run (mknod (Some p2) m2 d2) s in
  let s21 := run (mknod (Some p1) m1 d1) s2.2 in
  s1.1 = 0 → s12.1 = 0 →
  s2.1 = 0 ∧ s21.1 = 0 ∧ s21.2 = s12.2.
Proof.
  cbn zeta. rewrite (run_mknod_expected s).
  intros (key1 & Hkey1 & ->)%expected_success. cbn [snd].
  rewrite run_mknod_expected.
  intros (key2 & Hkey2 & ->)%expected_success. cbn [snd p_kernel p_errno] in *.
  change (k_cwd (creat (p_kernel s) key1 m1)) with (k_cwd (p_kernel s)) in Hkey2.
  destruct (attempt_insert_inv (p_kernel s) (creat (p_kernel s) key1 m1) _ p2 key2 key1
              (new_file (p_kernel s) m1) Hkey2) as [Hkey2' Hne]; [done..|].
  pose proof (attempt_free _ _ _ _ Hkey2') as Hfree2.
  assert (run (mknod (Some p2) m2 d2) s =
          (0, {| p_kernel := creat (p_kernel s) key2 m2; p_errno := p_errno s |})) as ->.
  { rewrite run_mknod_expected. unfold expected. by rewrite Hkey2'. }
  cbn [fst snd].
  assert (run (mknod (Some p1) m1 d1)
            {| p_kernel := creat (p_kernel s) key2 m2; p_errno := p_errno s |} =
          (0, {| p_kernel := creat (creat (p_kernel s) key2 m2) key1 m1;
                 p_errno := p_errno s |})) as ->.
  { rewrite run_mknod_expected. unfold expected. cbn [p_kernel p_errno].
    change (k_cwd (creat (p_kernel s) key2 m2)) with (k_cwd (p_kernel s)).
    by rewrite (attempt_insert_other (p_kernel s) (creat (p_kernel s) key2 m2) _ p1 key1 key2
                  (new_file (p_kernel s) m2) Hkey1). }
  cbn [fst snd]. split_and!; [done..|].
  unfold creat, set_fs; cbn. f_equal. f_equal.
  by apply insert_insert_ne.
Qed.
End Aftermath.

(** ** Sequences of calls *)

Lemma extends_refl (k : kernel) : extends k k 0.
Proof.
  unfold extends. split_and!; try done.
  intros key n Hsome Hnone. congruence.
Qed.

Lemma extends_trans (k k' k'' : kernel) (a b : nat) :
  extends k k' a → extends k' k'' b → extends k k'' (a + b).
Proof.
  intros (Hfd & Hcwd & Hum & Hpriv & Hold & Hnew & Hsize)
         (Hfd' & Hcwd' & Hum' & Hpriv' & Hold' & Hnew' & Hsize').
  unfold extends. split_and!; try congruence.
  - intros key n Hk. by apply Hold', Hold.
  - intros key n Hk'' Hk. destruct (k_fs k' !! key) as [n'|] eqn:Hk'.
    + pose proof (Hold' key n' Hk'). apply (Hnew key); [congruence|done].
    + by apply (Hnew' key).
  - lia.
Qed.

Lemma extends_creat (k : kernel) (key : list string) (mode : mode_t) :
  k_fs k !! key = None → extends k (creat k key mode) 1.
Proof.
  intros Hkey. unfold extends; cbn. split_and!; try done.
  - intros key' n Hk. rewrite lookup_insert_ne; [done|congruence].
  - intros key' n Hk' Hk. destruct (decide (key = key')) as [->|Hne].
    + rewrite lookup_insert_eq in Hk'. by injection Hk' as <-.
    + rewrite lookup_insert_ne in Hk' by done. congruence.
  - rewrite map_size_insert_None by done. lia.
Qed.

Lemma expected_extends (s : process) dir path mode :
  extends (p_kernel s) (p_kernel (expected s dir path mode).2)
    (if (expected s dir path mode).1 =? 0 then 1 else 0).
Proof.
  unfold expected.
  destruct (attempt (p_kernel s) dir path) as [e|key] eqn:Hkey; [apply extends_refl|].
  apply extends_creat. by eapply attempt_free.
Qed.

Lemma creat_wf_tree (k : kernel) d p key parent mode :
  wf_tree k → namei k d p = Absent key parent → wf_tree (creat k key mode).
Proof.
  intros Hwf (Hkey & Hparent & Hdir & _)%namei_Absent_inv key' n; cbn.
  destruct (decide (key = key')) as [<-|Hne].
  - intros _ _. exists parent. split; [|done].
    rewrite lookup_insert_ne; [done|congruence].
  - rewrite lookup_insert_ne by done. intros Hk' Hroot.
    destruct (Hwf key' n Hk' Hroot) as (d' & Hd' & Hdir').
    exists d'. split; [|done]. rewrite lookup_insert_ne; [done|congruence].
Qed.

Lemma expected_wf_tree (s : process) dir path mode :
  wf_tree (p_kernel s) → wf_tree (p_kernel (expected s dir path mode).2).
Proof.
  intros Hwf. unfold expected.
  destruct (attempt (p_kernel s) dir path) as [e|key] eqn:Hkey; [done|].
  destruct (attempt_inr _ _ _ _ Hkey) as (p & d & parent & _ & _ & Hn & _).
  by eapply creat_wf_tree.
Qed.

Section Sequences.
Context `{fcntl_h}.

Lemma body_extends (c : shim_call) (s : process) :
  extends (p_kernel s) (p_kernel (run (body c) s).2) (created c (run (body c) s).1).
Proof.
  destruct c as [path mode dev|fd path mode dev|args|version path mode dev]; cbn [body created].
  - rewrite run_mknod_expected. apply expected_extends.
  - rewrite run_mknodat_expected. apply expected_extends.
  - apply extends_refl.
  - apply extends_refl.
Qed.

Lemma body_wf_tree (c : shim_call) (s : process) :
  wf_tree (p_kernel s) → wf_tree (p_kernel (run (body c) s).2).
Proof.
  intros Hwf.
  destruct c as [path mode dev|fd path mode dev|args|version path mode dev]; cbn [body].
  - rewrite run_mknod_expected. by apply expected_wf_tree.
  - rewrite run_mknodat_expected. by apply expected_wf_tree.
  - done.
  - done.
Qed.

(** X9.  After any sequence of calls of the four functions, the kernel
    is the one before with some empty regular files added: every entry
    that existed is still there with its type, permissions and contents,
    every entry that is new is a regular file without data, there is
    exactly one new entry per call of [mknod] or [mknodat] that returned
    0, and the descriptor table, working directory and umask are as they
    were. *)
Theorem calls_only_add_empty_files (cs : list shim_call) (s : process) :
  let r := run_calls cs s in
  length r.1 = length cs ∧
  extends (p_kernel s) (p_kernel r.2) (created_by cs r.1).
Proof.
  revert s; induction cs as [|c cs IH]; intros s; cbn zeta.
  - split; [done|apply extends_refl].
  - cbn [run_calls]. pose proof (body_extends c s) as Hc.
    destruct (run (body c) s) as [r s1]. specialize (IH s1). cbn zeta in IH.
    destruct (run_calls cs s1) as [rs s2]. cbn in *.
    destruct IH as [Hlen Hrest]. split; [by rewrite Hlen|].
    by eapply extends_trans.
Qed.

(** X10.  If every entry but the root sits in an existing directory,
    this is still so after any sequence of calls of the four functions:
    they never leave an entry without its directory. *)
Theorem calls_keep_tree (cs : list shim_call) (s : process) :
  wf_tree (p_kernel s) → wf_tree (p_kernel (run_calls cs s).2).
Proof.
  revert s; induction cs as [|c cs IH]; intros s Hwf; [done|].
  cbn [run_calls]. pose proof (body_wf_tree c s Hwf) as Hc.
  destruct (run (body c) s) as [r s1]. specialize (IH s1 Hc).
  by destruct (run_calls cs s1) as [rs s2].
Qed.
End Sequences.

(** ** Concurrent calls on one path *)

Lemma turns_snoc (j i : nat) (sched : list nat) :
  turns j (sched ++ [i]) = (turns j sched + if decide (i = j) then 1 else 0)%nat.
Proof.
  unfold turns. rewrite filter_app, length_app. f_equal.
  rewrite filter_cons, filter_nil. by destruct (decide (i = j)).
Qed.

Lemma turns_snoc_ne (j i : nat) (sched : list nat) :
  i ≠ j → turns j (sched ++ [i]) = turns j sched.
Proof. intros. rewrite turns_snoc, decide_False by done. lia. Qed.

Lemma turns_snoc_eq (i : nat) (sched : list nat) :
  turns i (sched ++ [i]) = S (turns i sched).
Proof. rewrite turns_snoc, decide_True by done. lia. Qed.

Lemma turns_zero (j : nat) (sched : list nat) :
  turns j sched = 0%nat ↔ j ∉ sched.
Proof.
  unfold turns. rewrite length_zero_iff_nil. split.
  - intros Hnil Hin.
    assert (j ∈ filter (λ i, i = j) sched) as Hj by (by apply list_elem_of_filter).
    rewrite Hnil in Hj. by apply not_elem_of_nil in Hj.
  - intros Hnot. apply elem_of_nil_inv. intros i [-> Hi]%list_elem_of_filter. done.
Qed.

Lemma run_schedule_snoc `{fcntl_h} (sched : list nat) (i : nat) (m : machine) :
  run_schedule (sched ++ [i]) m = step_thread i (run_schedule sched m).
Proof. unfold run_schedule. by rewrite foldl_app. Qed.

Lemma run_schedule_cons `{fcntl_h} (i : nat) (sched : list nat) (m : machine) :
  run_schedule (i :: sched) m = run_schedule sched (step_thread i m).
Proof. done. Qed.

Lemma first_thread_snoc (n : nat) (sched : list nat) (i : nat) :
  first_thread n (sched ++ [i]) =
    match first_thread n sched with
    | Some w => Some w
    | None => if decide (i < n)%nat then Some i else None
    end.
Proof.
  unfold first_thread. rewrite filter_app, filter_cons, filter_nil.
  destruct (filter (λ j, (j < n)%nat) sched) as [|w ws]; [|done].
  by destruct (decide (i < n)%nat).
Qed.

Lemma first_thread_None (n : nat) (sched : list nat) (j : nat) :
  first_thread n sched = None → (j < n)%nat → turns j sched = 0%nat.
Proof.
  unfold first_thread. intros Hnone Hj. apply turns_zero. intros Hin.
  assert (j ∈ filter (λ i, (i < n)%nat) sched) as Hf by (by apply list_elem_of_filter).
  destruct (filter (λ i, (i < n)%nat) sched); [by apply elem_of_nil in Hf|done].
Qed.

Lemma first_thread_idle (n : nat) (pre post : list nat) (i : nat) :
  (∀ x, x ∈ pre → (n ≤ x)%nat) → (i < n)%nat →
  first_thread n (pre ++ i :: post) = Some i.
Proof.
  intros Hidle Hi. unfold first_thread. rewrite filter_app.
  assert (filter (λ j, (j < n)%nat) pre = []) as ->.
  { apply elem_of_nil_inv. intros x [Hx Hin%Hidle]%list_elem_of_filter. lia. }
  by rewrite filter_cons, decide_True.
Qed.

Section Steps.
Context `{fcntl_h}.

Lemma step_absent (i : nat) (m : machine) :
  m_threads m !! i = None → step_thread i m = m.
Proof. unfold step_thread. by intros ->. Qed.

Lemma step_returned (i : nat) (m : machine) (r : Z) (e : option error) :
  m_threads m !! i = Some {| t_prog := Return r; t_errno := e |} →
  step_thread i m = m.
Proof. unfold step_thread. by intros ->. Qed.

(** The first move of a call: it takes the path or fails. *)
Lemma step_initial (i : nat) (m : machine) p c :
  m_threads m !! i = Some (initial p c) →
  step_thread i m =
    match attempt (m_kernel m) (inr (k_cwd (m_kernel m))) (Some p) with
    | inl e =>
        {| m_kernel := m_kernel m; m_threads := <[i := failed e]> (m_threads m) |}
    | inr key =>
        let new := install (creat (m_kernel m) key c.1) key (Z.lor O_CREAT O_EXCL) in
        {| m_kernel := new.2; m_threads := <[i := closing new.1]> (m_threads m) |}
    end.
Proof.
  intros Hi. unfold step_thread. rewrite Hi.
  cbn [initial mknod t_prog t_errno open mbind prog_bind prog_seq].
  cbn [exec posix kexec p_kernel p_errno].
  rewrite open_from_excl.
  destruct (attempt _ _ _) as [e|key]; [done|].
  unfold install. cbn.
  by destruct (Z.eqb_spec (Z.of_nat (lowest_free (k_fd (m_kernel m)))) (-1)); [lia|].
Qed.

Lemma step_closing (i : nat) (m : machine) fd k' :
  m_threads m !! i = Some (closing fd) →
  close_fd (m_kernel m) fd = (inr 0, k') →
  step_thread i m =
    {| m_kernel := k'; m_threads := <[i := succeeded]> (m_threads m) |}.
Proof.
  intros Hi Hclose. unfold step_thread. rewrite Hi.
  cbn [closing close t_prog t_errno mbind prog_bind prog_seq].
  cbn [exec posix kexec p_kernel p_errno].
  by rewrite Hclose.
Qed.
End Steps.

Section Race.
Context `{fcntl_h}.

Lemma losers_winner_moves k p calls w sched ts t :
  losers k p calls w sched ts → losers k p calls w (sched ++ [w]) (<[w := t]> ts).
Proof.
  intros [Hlen Hothers]. split; [by rewrite length_insert|].
  intros j c Hj Hc. rewrite list_lookup_insert_ne by done.
  rewrite turns_snoc_ne by congruence. by apply Hothers.
Qed.

Lemma losers_winner_idle k p calls w sched ts :
  losers k p calls w sched ts → losers k p calls w (sched ++ [w]) ts.
Proof.
  intros [Hlen Hothers]. split; [done|].
  intros j c Hj Hc.
  rewrite turns_snoc_ne by congruence. by apply Hothers.
Qed.

(** A move of a call other than the winner, once the entry exists. *)
Lemma loser_moves k p calls w sched (m : machine) (i : nat) e :
  losers k p calls w sched (m_threads m) →
  i ≠ w →
  attempt (m_kernel m) (inr (k_cwd (m_kernel m))) (Some p) = inl e →
  late_error k e →
  ∃ ts,
    step_thread i m = {| m_kernel := m_kernel m; m_threads := ts |} ∧
    ts !! w = m_threads m !! w ∧
    losers k p calls w (sched ++ [i]) ts.
Proof.
  intros [Hlen Hothers] Hi Hfail Hlate.
  destruct (calls !! i) as [c|] eqn:Hc.
  - pose proof (Hothers i c Hi Hc) as Hti.
    destruct (decide (turns i sched = 0%nat)) as [Hz|Hnz].
    + exists (<[i := failed e]> (m_threads m)). split_and!.
      * by rewrite (step_initial i m p c Hti), Hfail.
      * by rewrite list_lookup_insert_ne.
      * split; [by rewrite length_insert|]. intros j cj Hj Hcj.
        destruct (decide (i = j)) as [->|Hij].
        -- rewrite turns_snoc_eq, decide_False by lia. exists e. split; [|done].
           apply list_lookup_insert_eq. rewrite Hlen. by eapply lookup_lt_Some.
        -- rewrite list_lookup_insert_ne, turns_snoc_ne by done. by apply Hothers.
    + destruct Hti as (e' & Hti & Hlate').
      exists (m_threads m). split_and!.
      * rewrite (step_returned i m (-1) (Some e')) by done. by destruct m.
      * done.
      * split; [done|]. intros j cj Hj Hcj.
        destruct (decide (i = j)) as [->|Hij].
        -- rewrite turns_snoc_eq, decide_False by lia. by exists e'.
        -- rewrite turns_snoc_ne by done. by apply Hothers.
  - exists (m_threads m). split_and!.
    + rewrite step_absent; [by destruct m|].
      apply lookup_ge_None. rewrite Hlen. by apply lookup_ge_None.
    + done.
    + split; [done|]. intros j cj Hj Hcj.
      rewrite turns_snoc_ne by congruence. by apply Hothers.
Qed.

(** While the creator holds its descriptor, an attempt finds the entry
    or no descriptor number. *)
Lemma attempt_while_closing (k : kernel) p key mode :
  attempt k (inr (k_cwd k)) (Some p) = inr key →
  let k1 := (install (creat k key mode) key (Z.lor O_CREAT O_EXCL)).2 in
  ∃ e, attempt k1 (inr (k_cwd k1)) (Some p) = inl e ∧ late_error k e.
Proof.
  intros Hkey k1. eexists. split.
  - by apply (attempt_late k k1 _ p key (new_file k mode)).
  - unfold late_error. destruct (table_full k1) eqn:Hfull; [right|by left].
    split; [done|]. unfold descriptors_free. revert Hfull.
    unfold table_full, k1, install. cbn.
    intros Hfull%Nat.leb_le.
    pose proof (lowest_free_le
      (<[lowest_free (k_fd k) := {| of_node := key; of_flag := Z.lor O_CREAT O_EXCL |}]>
         (k_fd k))) as Hle.
    rewrite map_size_insert_None in Hle by apply lowest_free_spec. lia.
Qed.

Lemma attempt_after_closing (k : kernel) p key mode :
  attempt k (inr (k_cwd k)) (Some p) = inr key →
  let k2 := creat k key mode in
  attempt k2 (inr (k_cwd k2)) (Some p) = inl EEXIST ∧ late_error k EEXIST.
Proof.
  intros Hkey k2. split; [|by left].
  rewrite (attempt_late k k2 _ p key (new_file k mode)) by done.
  destruct (attempt_inr _ _ _ _ Hkey) as (_ & _ & _ & _ & _ & _ & _ & Hfree & _).
  change (table_full k2) with (table_full k). by rewrite Hfree.
Qed.

Lemma race_step k p calls sched m (i : nat) :
  race k p calls sched m →
  race k p calls (sched ++ [i]) (step_thread i m).
Proof.
  intros [Hfirst -> | e He Hk Hlen Hts
         | w cw key Hkey Hfirst Hcw Hturns Hk Htw Hl
         | w cw key Hkey Hfirst Hcw Hturns Hk Htw Hl].
  - destruct (calls !! i) as [c|] eqn:Hc.
    + assert (∀ j cj, calls !! j = Some cj → turns j sched = 0%nat) as Hfresh.
      { intros j cj Hj. apply (first_thread_None _ _ _ Hfirst). by eapply lookup_lt_Some. }
      assert (m_threads (spawn k (Some p) calls) !! i = Some (initial p c)) as Hi.
      { cbn. by rewrite list_lookup_fmap, Hc. }
      rewrite (step_initial i _ p c Hi). cbn [spawn m_kernel m_threads].
      destruct (attempt k (inr (k_cwd k)) (Some p)) as [e|key] eqn:Hkey.
      * apply race_blocked with e; cbn; [done|done|by rewrite length_insert, length_fmap|].
        intros j cj Hcj. destruct (decide (i = j)) as [->|Hij].
        -- rewrite turns_snoc_eq, decide_False by lia.
           apply list_lookup_insert_eq. rewrite length_fmap. by eapply lookup_lt_Some.
        -- rewrite list_lookup_insert_ne, list_lookup_fmap, Hcj by done.
           by rewrite turns_snoc_ne, (Hfresh j cj) by done.
      * apply race_closing with i c key; cbn.
        -- done.
        -- rewrite first_thread_snoc, Hfirst, decide_True; [done|].
           by eapply lookup_lt_Some.
        -- done.
        -- by rewrite turns_snoc_eq, (Hfresh i c).
        -- done.
        -- rewrite list_lookup_insert_eq; [done|].
           rewrite length_fmap. by eapply lookup_lt_Some.
        -- split; [by rewrite length_insert, length_fmap|]. intros j cj Hj Hcj.
           rewrite turns_snoc_ne, (Hfresh j cj), decide_True by (done || congruence).
           by rewrite list_lookup_insert_ne, list_lookup_fmap, Hcj.
    + rewrite step_absent by (by cbn; rewrite list_lookup_fmap, Hc).
      apply race_not_started; [|done].
      rewrite first_thread_snoc, Hfirst, decide_False; [done|].
      apply lookup_ge_None in Hc. lia.
  - destruct (calls !! i) as [c|] eqn:Hc.
    + pose proof (Hts i c Hc) as Hti.
      destruct (decide (turns i sched = 0%nat)) as [Hz|Hnz].
      * rewrite (step_initial i m p c Hti), Hk, He.
        apply race_blocked with e; cbn; [done|done|by rewrite length_insert|].
        intros j cj Hcj. destruct (decide (i = j)) as [->|Hij].
        -- rewrite turns_snoc_eq, decide_False by lia.
           apply list_lookup_insert_eq. rewrite Hlen. by eapply lookup_lt_Some.
        -- rewrite list_lookup_insert_ne, turns_snoc_ne by done. by apply Hts.
      * rewrite (step_returned i m (-1) (Some e)) by done.
        apply race_blocked with e; [done..|].
        intros j cj Hcj. destruct (decide (i = j)) as [->|Hij].
        -- rewrite turns_snoc_eq, decide_False by lia.
           rewrite Hti. done.
        -- rewrite turns_snoc_ne by done. by apply Hts.
    + rewrite step_absent.
      * apply race_blocked with e; [done..|].
        intros j cj Hcj. rewrite turns_snoc_ne by congruence. by apply Hts.
      * apply lookup_ge_None. rewrite Hlen. by apply lookup_ge_None.
  - destruct (decide (i = w)) as [->|Hi].
    + pose proof (install_close (creat k key cw.1) key (Z.lor O_CREAT O_EXCL)) as Hclose.
      destruct (install _ _ _) as [fd k'] eqn:Hinst. destruct Hclose as [_ Hclose].
      cbn in Hk, Htw. rewrite <- Hk in Hclose.
      rewrite (step_closing w m fd _ Htw Hclose).
      apply race_decided with w cw key; cbn.
      * done.
      * by rewrite first_thread_snoc, Hfirst.
      * done.
      * rewrite turns_snoc_eq. lia.
      * done.
      * rewrite list_lookup_insert_eq; [done|]. by eapply lookup_lt_Some.
      * by apply losers_winner_moves.
    + destruct (attempt_while_closing k p key cw.1 Hkey) as (e & He & Hlate).
      cbn zeta in He. rewrite <- Hk in He.
      destruct (loser_moves k p calls w sched m i e Hl Hi He Hlate) as (ts & -> & Hts & Hl').
      apply race_closing with w cw key; cbn.
      * done.
      * by rewrite first_thread_snoc, Hfirst.
      * done.
      * by rewrite turns_snoc_ne by congruence.
      * done.
      * by rewrite Hts.
      * done.
  - destruct (decide (i = w)) as [->|Hi].
    + rewrite (step_returned w m 0 None) by done.
      apply race_decided with w cw key; [done| |done| |done..|by apply losers_winner_idle].
      * by rewrite first_thread_snoc, Hfirst.
      * rewrite turns_snoc_eq. lia.
    + destruct (attempt_after_closing k p key cw.1 Hkey) as (He & Hlate).
      cbn zeta in He. rewrite <- Hk in He.
      destruct (loser_moves k p calls w sched m i _ Hl Hi He Hlate) as (ts & -> & Hts & Hl').
      apply race_decided with w cw key; cbn.
      * done.
      * by rewrite first_thread_snoc, Hfirst.
      * done.
      * by rewrite turns_snoc_ne by congruence.
      * done.
      * by rewrite Hts.
      * done.
Qed.

Lemma race_run k p calls sched :
  race k p calls sched (run_schedule sched (spawn k (Some p) calls)).
Proof.
  induction sched as [|i sched IH] using rev_ind.
  - by apply race_not_started.
  - rewrite run_schedule_snoc. by eapply race_step.
Qed.

(** A call that has returned 0 is the call that moved first. *)
Lemma success_is_first k p calls sched m (x : nat) (tx : thread) :
  race k p calls sched m →
  m_threads m !! x = Some tx →
  thread_outcome tx = Some Success →
  first_thread (length calls) sched = Some x.
Proof.
  intros [Hfirst -> | e He Hk Hlen Hts
         | w cw key Hkey Hfirst Hcw Hturns Hk Htw [Hlen Hl]
         | w cw key Hkey Hfirst Hcw Hturns Hk Htw [Hlen Hl]] Hx Hsx.
  - cbn in Hx. rewrite list_lookup_fmap in Hx.
    destruct (calls !! x); [|done]. by injection Hx as <-.
  - destruct (calls !! x) as [c|] eqn:Hc.
    + rewrite (Hts x c Hc) in Hx. injection Hx as <-.
      by destruct (decide (turns x sched = 0%nat)).
    + apply lookup_ge_None in Hc. apply lookup_lt_Some in Hx. lia.
  - destruct (decide (x = w)) as [->|Hne]; [done|].
    destruct (calls !! x) as [c|] eqn:Hc.
    + specialize (Hl x c Hne Hc).
      destruct (decide (turns x sched = 0%nat)).
      * rewrite Hl in Hx. by injection Hx as <-.
      * destruct Hl as (e & Hl & _). rewrite Hl in Hx. by injection Hx as <-.
    + apply lookup_ge_None in Hc. apply lookup_lt_Some in Hx. lia.
  - destruct (decide (x = w)) as [->|Hne]; [done|].
    destruct (calls !! x) as [c|] eqn:Hc.
    + specialize (Hl x c Hne Hc).
      destruct (decide (turns x sched = 0%nat)).
      * rewrite Hl in Hx. by injection Hx as <-.
      * destruct Hl as (e & Hl & _). rewrite Hl in Hx. by injection Hx as <-.
    + apply lookup_ge_None in Hc. apply lookup_lt_Some in Hx. lia.
Qed.
End Race.







(** X12.  Under any schedule, finished or not, at most one call has
    returned success: two threads that have both returned 0 are the same
    thread. *)
Lemma at_most_one_success `{fcntl_h}
    (k : kernel) (p : string) (key : list string) (parent : inode)
    (calls : list (mode_t * dev_t)) (sched : list nat) (i j : nat) (ti tj : thread) :
  lookup_path k p = Absent key parent →
  may_write k parent = true →
  let now := run_schedule sched (spawn k (Some p) calls) in
  m_threads now !! i = Some ti → thread_outcome ti = Some Success →
  m_threads now !! j = Some tj → thread_outcome tj = Some Success →
  i = j.
Proof.
  intros Hn Hw now Hi Hsi Hj Hsj.
  pose proof (success_is_first k p calls sched _ i ti (race_run k p calls sched) Hi Hsi) as Hfi.
  pose proof (success_is_first k p calls sched _ j tj (race_run k p calls sched) Hj Hsj) as Hfj.
  congruence.
Qed.

(** After the schedule 1, 0, 1 thread 1 has returned 0 and thread 0 has
    lost. *)
Lemma at_most_one_success_witness :
  let now :=
    run_schedule (H := linux) [1; 0; 1]%nat
      (spawn (H := linux) sample_kernel (Some "/tmp/x")
         [(0x1a4, 0); (0x21ff, 5); (0, 0)]) in
  m_threads now !! 1%nat = Some succeeded ∧
  m_threads now !! 0%nat = Some lost ∧
  1%nat = 1%nat.
Proof.
  intros now.
  split; [vm_compute; reflexivity|]. split; [vm_compute; reflexivity|].
  apply (at_most_one_success (H := linux) sample_kernel "/tmp/x" ["tmp"; "x"]
           (dir_node 0x3ff) [(0x1a4, 0); (0x21ff, 5); (0, 0)] [1; 0; 1]%nat
           1%nat 1%nat succeeded succeeded); vm_compute; reflexivity.
Defined.

(** X13.  Only the call that moves first can succeed: under any
    interleaving, finished or not, if the first turn given to an existing
    thread goes to thread [i], then a call that has returned 0 is call
    [i]. *)
Theorem first_creation_wins `{fcntl_h}
    (k : kernel) (p : string) (calls : list (mode_t * dev_t))
    (pre post : list nat) (i j : nat) (t : thread) :
  (∀ x, x ∈ pre → (length calls ≤ x)%nat) →
  (i < length calls)%nat →
  let now := run_schedule (pre ++ i :: post) (spawn k (Some p) calls) in
  m_threads now !! j = Some t →
  thread_outcome t = Some Success →
  j = i.
Proof.
  intros Hidle Hi now Hj Hsj.
  pose proof (success_is_first k p calls _ _ j t (race_run k p calls _) Hj Hsj) as Hf.
  rewrite (first_thread_idle _ pre post i Hidle Hi) in Hf. congruence.
Qed.

Lemma first_creation_wins_witness :
  let now :=
    run_schedule (H := linux) [7; 1; 0; 2; 1]%nat
      (spawn (H := linux) sample_kernel (Some "/tmp/x")
         [(0x1a4, 0); (0x21ff, 5); (0, 0)]) in
  m_threads now !! 1%nat = Some succeeded ∧ 1%nat = 1%nat.
Proof.
  intros now. split; [vm_compute; reflexivity|].
  apply (first_creation_wins (H := linux) sample_kernel "/tmp/x"
           [(0x1a4, 0); (0x21ff, 5); (0, 0)] [7]%nat [0; 2; 1]%nat 1%nat 1%nat succeeded).
  - intros x ->%list_elem_of_singleton. cbn. lia.
  - cbn. lia.
  - vm_compute; reflexivity.
  - vm_compute; reflexivity.
Defined.

(** ** Sample runs *)


Lemma second_mknod_fails_witness :
  let first := run (H := posix (H := illumos))
                 (mknod (H := illumos) (Some "/tmp/x") 0x1a4 0) sample in
  first.1 = 0 ∧
  (run (H := posix (H := illumos))
     (mknod (H := illumos) (Some "/tmp/x") 0x21ff 7) first.2).1 = -1.
Proof.
  intros first.
  assert (first.1 = 0) as Hfirst by (vm_compute; reflexivity).
  split; [exact Hfirst|].
  pose proof (second_mknod_fails (H := illumos) sample "/tmp/x" 0x1a4 0x21ff 0 7 Hfirst) as Hsecond.
  cbv zeta in Hsecond. fold first in Hsecond. by rewrite Hsecond.
Defined.

Lemma independent_creations_commute_witness :
  (run (H := posix (H := linux)) (mknod (H := linux) (Some "/tmp/x") 0x1a4 0)
     (run (H := posix (H := linux)) (mknod (H := linux) (Some "y") 0x1ff 0) sample).2).2
  = (run (H := posix (H := linux)) (mknod (H := linux) (Some "y") 0x1ff 0)
       (run (H := posix (H := linux)) (mknod (H := linux) (Some "/tmp/x") 0x1a4 0) sample).2).2.
Proof.
  apply (independent_creations_commute (H := linux) sample "/tmp/x" "y" 0x1a4 0x1ff 0 0);
    vm_compute; reflexivity.
Defined.

Lemma sample_wf_tree : wf_tree sample_kernel.
Proof.
  intros key n Hk Hroot. apply elem_of_map_to_list in Hk.
  assert (map_to_list (k_fs sample_kernel) =
          [ (["dev"], dir_node 0x1ed); (["tmp"], dir_node 0x3ff); (["ro"], dir_node 0x16d);
            (["dev"; "null"], {| i_type := S_IFCHR; i_perm := 0x1b6; i_data := [] |});
            (["tmp"; "old"], {| i_type := S_IFREG; i_perm := 0x1a4; i_data := [104; 105; 10] |});
            ([], dir_node 0x1ed) ]) as Hlist by (vm_compute; reflexivity).
  rewrite Hlist in Hk.
  clear Hlist.
  repeat (apply elem_of_cons in Hk as [[= -> ->]|Hk]);
    first [ by destruct Hroot
          | by apply elem_of_nil in Hk
          | match goal with
            | |- ∃ d, ?m !! ?k = Some d ∧ _ =>
                let v := eval vm_compute in (m !! k) in
                match v with Some ?x => exists x end
            end; split; vm_compute; reflexivity ].
Qed.

Lemma calls_keep_tree_witness :
  wf_tree (p_kernel (run_calls (H := linux)
                       [call_mknod (Some "/tmp/x") 0x21a4 7;
                        call__xmknod 1 None 0 0;
                        call_mknodat 3 (Some "x") 0x1a4 0;
                        call__mknod [];
                        call_mknodat 3 (Some "y") 0x1a4 0] sample).2).
Proof. apply (calls_keep_tree (H := linux)). exact sample_wf_tree. Defined.
